(** * anilist.py: splicing base64 images from one SVG into another

    A shallow embedding of [scripts/anilist.py] (class [AniListSVG]) and of
    the parts of [xml.etree.ElementTree] / [xml.etree.ElementPath] it calls,
    followed by the properties of extraction, selection, fragment
    construction and injection.

    Conventions.
    - A Python [str] is a list of Unicode code points ([N]).
    - An [ET.Element] is a rose tree; the identity of an element object of a
      parsed document is its position (the child indexes leading to it from
      the document element), so a reference to an element is a [ref] and the
      selectors return [node]s, i.e. references paired with the element.
    - Printing, [sys.exit] and the queries a run evaluates are recorded in an
      event trace by a small writer/exit monad [M]. *)

From Stdlib Require Import String Ascii ZArith DecimalString.
From Equations.Prop Require Import Equations.
From stdpp Require Import gmap list sorting.

Local Open Scope Z_scope.
Local Open Scope list_scope.

(** ** Python strings *)

Abbreviation char := N (only parsing).
Abbreviation str := (list N) (only parsing).

(** A literal of the source, as code points. *)
Definition py (s : string) : str :=
  List.map N_of_ascii (list_ascii_of_string s).

Arguments py : simpl never.

(** [Py_UNICODE_ISSPACE]: the predicate behind both [str.strip()] and the
    [\s] class of a [str] pattern. *)
Definition isspace (c : char) : bool :=
  ((9 <=? c) && (c <=? 13) || (28 <=? c) && (c <=? 32)
   || (c =? 133) || (c =? 160) || (c =? 5760)
   || (8192 <=? c) && (c <=? 8202)
   || (c =? 8232) || (c =? 8233) || (c =? 8239) || (c =? 8287)
   || (c =? 12288))%N.

Fixpoint lstrip (s : str) : str :=
  match s with
  | c :: s' => if isspace c then lstrip s' else s
  | [] => []
  end.

Definition rstrip (s : str) : str := reverse (lstrip (reverse s)).

(** [s.strip()] *)
Definition strip (s : str) : str := rstrip (lstrip s).

(** [s[:n]] *)
Definition slice_to (n : nat) (s : str) : str := take n s.

(** [str(n)] for a Python [int]. *)
Definition str_of_int (z : Z) : str := py (NilZero.string_of_int (Z.to_int z)).

(** Truth value of a [str | None]. *)
Definition truthy (u : option str) : bool :=
  match u with
  | Some (_ :: _) => true
  | _ => false
  end.

(** [a or b] on [str | None]. *)
Definition py_or (a b : option str) : option str := if truthy a then a else b.

(** ** Regular expressions ([re]) *)

Inductive regex : Type :=
| EmptySet
| Epsilon
| CharSet (f : char → bool)
| Cat (r s : regex)
| Alt (r s : regex)
| Star (r : regex).

Fixpoint nullable (r : regex) : bool :=
  match r with
  | EmptySet => false
  | Epsilon => true
  | CharSet _ => false
  | Cat r s => nullable r && nullable s
  | Alt r s => nullable r || nullable s
  | Star _ => true
  end.

Fixpoint deriv (c : char) (r : regex) : regex :=
  match r with
  | EmptySet => EmptySet
  | Epsilon => EmptySet
  | CharSet f => if f c then Epsilon else EmptySet
  | Cat r s =>
      if nullable r then Alt (Cat (deriv c r) s) (deriv c s)
      else Cat (deriv c r) s
  | Alt r s => Alt (deriv c r) (deriv c s)
  | Star r => Cat (deriv c r) (Star r)
  end.

(** The whole of [s] is in the language of [r]. *)
Definition matches (r : regex) (s : str) : bool :=
  nullable (fold_left (λ r c, deriv c r) s r).

Definition Plus (r : regex) : regex := Cat r (Star r).

Fixpoint Lit (s : str) : regex :=
  match s with
  | [] => Epsilon
  | c :: s' => Cat (CharSet (N.eqb c)) (Lit s')
  end.

(** [$] without [re.MULTILINE]: the end of the string, or just before a
    newline that ends the string. *)
Definition Dollar : regex := Alt Epsilon (CharSet (N.eqb 10)).

Definition in_range (lo hi : string) (c : char) : bool :=
  match py lo, py hi with
  | [l], [h] => ((l <=? c) && (c <=? h))%N
  | _, _ => false
  end.

(** [[A-Za-z0-9+/=\s]] *)
Definition base64_or_space (c : char) : bool :=
  in_range "A" "Z" c || in_range "a" "z" c || in_range "0" "9" c
  || in_range "+" "+" c || in_range "/" "/" c || in_range "=" "=" c
  || isspace c.

(** [[^;]] *)
Definition not_semicolon (c : char) : bool := negb (in_range ";" ";" c).

(** [r"^data:image/[^;]+;base64,[A-Za-z0-9+/=\s]+$"] *)
Definition data_uri_pattern : regex :=
  Cat (Lit (py "data:image/"))
    (Cat (Plus (CharSet not_semicolon))
       (Cat (Lit (py ";base64,"))
          (Cat (Plus (CharSet base64_or_space)) Dollar))).

(** [is_data_uri], the local function of [extract_uris_data]. *)
Definition is_data_uri (uri : option str) : bool :=
  match uri with
  | Some u => if truthy uri then matches data_uri_pattern (strip u) else false
  | None => false
  end.

(** ** Namespaces and tags *)

Module Namespace.
Definition SVG : str := py "http://www.w3.org/2000/svg".
Definition XHTML : str := py "http://www.w3.org/1999/xhtml".
Definition XLINK : str := py "http://www.w3.org/1999/xlink".
End Namespace.

(** [f"{{{ns}}}local"] *)
Definition qname (ns : str) (local : string) : str :=
  py "{" ++ ns ++ py "}" ++ py local.

Module Tag.
Definition DIV : str := qname Namespace.XHTML "div".
Definition IMG : str := qname Namespace.XHTML "img".
Definition SECTION : str := qname Namespace.XHTML "section".
Definition IMAGE : str := qname Namespace.SVG "image".
End Tag.

Definition NSMAP : gmap str str :=
  <[py "svg" := Namespace.SVG]>
    (<[py "xhtml" := Namespace.XHTML]> {[py "xlink" := Namespace.XLINK]}).

(** The tag a prefixed name of a path stands for: the tokenizer of
    ElementPath turns [prefix:local] into ["{%s}%s" % (namespaces[prefix],
    local)]. *)
Definition prefixed (prefix local : string) : str :=
  qname (default [] (NSMAP !! py prefix)) local.

(** The tag of a [foreignObject] of the SVG namespace. *)
Definition FOREIGN_OBJECT : str := qname Namespace.SVG "foreignObject".

(** ** Elements *)

#[local] Unset Elimination Schemes.

Inductive Element : Type := mkElement {
  tag : str;
  attrib : gmap str str;
  text : option str;
  tail : option str;
  children : list Element
}.

#[local] Set Elimination Schemes.

(** [ET.Element(tag, attrib)] followed by the appends that give it
    [children]. *)
Definition element (tg : str) (a : gmap str str) (cs : list Element) : Element :=
  mkElement tg a None None cs.

(** A reference to an element of a document: the child indexes from the
    document element. *)
Abbreviation ref := (list nat) (only parsing).
Abbreviation node := (list nat * Element)%type (only parsing).

(** [elem.get(key)] *)
Definition get (e : Element) (key : str) : option str := attrib e !! key.

(** The children of an element, as the iteration [for e in elem] yields
    them. *)
Definition kids (n : node) : list node :=
  imap (λ i c, (n.1 ++ [i], c)) (children n.2).

(** The element a reference denotes. *)
Fixpoint get_at (e : Element) (r : ref) : option Element :=
  match r with
  | [] => Some e
  | i :: r' => children e !! i ≫= λ c, get_at c r'
  end.

Definition star : str := py "*".

(** [tag is None or self.tag == tag] *)
Definition tag_selected (tg : option str) (e : Element) : bool :=
  match tg with
  | None => true
  | Some t => bool_decide (tag e = t)
  end.

(** [Element.iter(tag)]: the element and its descendants in document
    order, those with a matching tag. *)
Fixpoint iter (tg : option str) (p : ref) (e : Element) : list node :=
  let tg := if decide (tg = Some star) then None else tg in
  (if tag_selected tg e then [(p, e)] else []) ++
  (fix iter_children (i : nat) (cs : list Element) : list node :=
     match cs with
     | [] => []
     | c :: cs' => iter tg (p ++ [i]) c ++ iter_children (S i) cs'
     end) 0%nat (children e).

(** ** ElementPath *)

(** A compiled path: the selectors [iterfind] builds from the tokens of a
    path made of [.], [//tag], [/tag] and [[@key='value']], the tags being
    plain names. *)
Inductive step : Type :=
| SelfStep                      (* [.] *)
| Descendant (tg : str)         (* [//tag] *)
| Child (tg : str)              (* [/tag] *)
| AttrEq (key value : str).     (* [[@key='value']] *)

Abbreviation xpath := (list step) (only parsing).

Definition select (s : step) (result : list node) : list node :=
  match s with
  | SelfStep => result
  | Descendant tg =>
      elem ← result;
      filter (λ e : node, e.1 ≠ elem.1) (iter (Some tg) elem.1 elem.2)
  | Child tg =>
      elem ← result;
      filter (λ e : node, tag e.2 = tg) (kids elem)
  | AttrEq key value =>
      filter (λ elem : node, get elem.2 key = Some value) result
  end.

(** [elem.findall(path, NSMAP)] *)
Definition findall (path : xpath) (elem : node) : list node :=
  foldl (λ result s, select s result) [elem] path.

(** [elem.find(path, NSMAP)] *)
Definition find (path : xpath) (elem : node) : option node :=
  head (findall path elem).

Definition class_is (value : string) : step := AttrEq (py "class") (py value).

(** [".//xhtml:div[@class='anilist']"] *)
Definition anilist_path : xpath :=
  [SelfStep; Descendant (prefixed "xhtml" "div"); class_is "anilist"].

(** [".//xhtml:div[@class='anilist']/xhtml:div[@class='characters']/xhtml:img"] *)
Definition strict_path : xpath :=
  anilist_path
  ++ [Child (prefixed "xhtml" "div"); class_is "characters";
      Child (prefixed "xhtml" "img")].

(** [".//xhtml:div[@class='anilist']//xhtml:img"] *)
Definition relaxed_path : xpath :=
  anilist_path ++ [Descendant (prefixed "xhtml" "img")].

(** [".//svg:image"] *)
Definition fallback_path : xpath :=
  [SelfStep; Descendant (prefixed "svg" "image")].

(** [".//svg:foreignObject"] *)
Definition foreign_object_path : xpath :=
  [SelfStep; Descendant (prefixed "svg" "foreignObject")].

(** ** Runs: events, exits and uncaught exceptions *)

Inductive event : Type :=
| Query (path : list step)     (* a [root.findall(path, NSMAP)] was evaluated *)
| Warn (msg : str)             (* [self.warn(msg)] *)
| Info (msg : str).            (* [self.info(msg)] *)

Inductive outcome (A : Type) : Type :=
| Ret (a : A)
| Exit (code : Z) (msg : str)  (* [self.err(msg, code)] *)
| Raise (exc : str).           (* an exception nothing catches *)

Arguments Ret {A} a.
Arguments Exit {A} code msg.
Arguments Raise {A} exc.

Definition M (A : Type) : Type := (list event * outcome A)%type.

Global Instance M_ret : MRet M := λ A a, ([], Ret a).

Global Instance M_bind : MBind M := λ A B f m,
  match m.2 with
  | Ret a => (m.1 ++ (f a).1, (f a).2)
  | Exit code msg => (m.1, Exit code msg)
  | Raise exc => (m.1, Raise exc)
  end.

Definition warn (msg : str) : M () := ([Warn msg], Ret ()).
Definition info (msg : str) : M () := ([Info msg], Ret ()).
Definition err {A : Type} (msg : str) : M A := ([], Exit 1 msg).
Definition raise {A : Type} (exc : str) : M A := ([], Raise exc).

(** [root.findall(path, NSMAP)], recorded in the trace. *)
Definition query (path : xpath) (root : Element) : M (list node) :=
  ([Query path], Ret (findall path ([], root))).

Definition trace {A : Type} (m : M A) : list event := m.1.
Definition result {A : Type} (m : M A) : outcome A := m.2.

(** ** [extract_uris_data] *)

Definition dquote : str := [34%N].
Definition ellipsis : str := [8230%N].

Definition img_warning : str :=
  py "Non-data URI ignored (expected base64 data:image/*) ".
Definition image_warning : str := py "Non-data URI in <image> ignored: ".

Definition no_data_uris : str :=
  py "No base64 data URIs found in source SVG. "
  ++ py "Expected <img src=" ++ dquote ++ py "data:image/...;base64,..."
  ++ dquote ++ py "> under .anilist/.characters, "
  ++ py "or <image href=" ++ dquote ++ py "data:image/..." ++ dquote ++ py ">.".

(** [max_images and len(data_uris) >= max_images] *)
Definition cap_reached (max_images : option Z) (data_uris : list str) : bool :=
  match max_images with
  | Some m => negb (m =? 0) && (m <=? Z.of_nat (length data_uris))
  | None => false
  end.

(** The [if is_data_uri(uri): ... elif uri: ...] of both loops; [label] is
    the text of the warning before the value. *)
Definition consider (label : str) (uri : option str) (data_uris : list str)
  : M (list str) :=
  match uri with
  | Some u =>
      if is_data_uri uri then mret (data_uris ++ [strip u])
      else if truthy uri then
        warn (label ++ slice_to 60 u ++ ellipsis);; mret data_uris
      else mret data_uris
  | None => mret data_uris
  end.

(** How a loop inside a function ends. *)
Inductive flow (A : Type) : Type :=
| Next (a : A)        (* the loop is over, the function goes on *)
| Return (a : A).     (* a [return] inside the loop *)

Arguments Next {A} a.
Arguments Return {A} a.

(** [for element in candidates: ...] of tiers 1 and 2. *)
Fixpoint scan_candidates (max_images : option Z) (candidates : list node)
  (data_uris : list str) : M (flow (list str)) :=
  match candidates with
  | [] => mret (Next data_uris)
  | element :: rest =>
      data_uris ← consider img_warning (get element.2 (py "src")) data_uris;
      if cap_reached max_images data_uris then mret (Return data_uris)
      else scan_candidates max_images rest data_uris
  end.

Definition xlink_href : str := py "{" ++ Namespace.XLINK ++ py "}href".

(** The link reference of an [svg:image]. *)
Definition href_of (element : Element) : option str :=
  py_or (get element xlink_href) (get element (py "href")).

(** [for element in svg_images: ...] of the fallback; its [break] and its
    normal end both lead to the test after the loop. *)
Fixpoint scan_svg_images (max_images : option Z) (svg_images : list node)
  (data_uris : list str) : M (list str) :=
  match svg_images with
  | [] => mret data_uris
  | element :: rest =>
      data_uris ← consider image_warning (href_of element.2) data_uris;
      if cap_reached max_images data_uris then mret data_uris
      else scan_svg_images max_images rest data_uris
  end.

Definition extract_uris_data (root : Element) (max_images : option Z)
  : M (list str) :=
  candidates ← query strict_path root;
  candidates ← match candidates with
               | [] => query relaxed_path root
               | _ => mret candidates
               end;
  r ← match candidates with
      | [] => mret (Next [])
      | _ => scan_candidates max_images candidates []
      end;
  match r with
  | Return data_uris => mret data_uris
  | Next data_uris =>
      data_uris ← match data_uris with
                  | [] =>
                      svg_images ← query fallback_path root;
                      scan_svg_images max_images svg_images data_uris
                  | _ => mret data_uris
                  end;
      match data_uris with
      | [] => err no_data_uris
      | _ => mret data_uris
      end
  end.

(** ** [find_object] *)

(** [self._children.remove(subelement)]: drops the first child that is the
    object [subelement]; [None] stands for its [ValueError]. *)
Fixpoint remove (subelement : node) (cs : list node) : option (list node) :=
  match cs with
  | [] => None
  | c :: cs' =>
      if decide (c.1 = subelement.1) then Some cs'
      else (c ::.) <$> remove subelement cs'
  end.

Lemma remove_length subelement cs cs' :
  remove subelement cs = Some cs' → length cs = S (length cs').
Proof.
  revert cs'; induction cs as [|c cs IH]; intros cs'; simpl; [done|].
  case_decide; [by intros [= <-]|].
  destruct (remove subelement cs) eqn:E; simpl; [|done].
  intros [= <-]. simpl. f_equal. by apply IH.
Qed.

Definition inspect {A : Type} (x : A) : {y : A | x = y} := exist _ x eq_refl.

(** [for child in target: target.remove(child)]: the iteration asks for
    [target[0]], [target[1]], ... of the list as it is at that moment and
    stops at the first index out of range. *)
Equations? clear_loop (i : nat) (cs : list node) : option (list node)
  by wf (length cs - i)%nat lt :=
  clear_loop i cs with inspect (cs !! i) := {
    | exist _ None Hend => Some cs
    | exist _ (Some child) Hc with inspect (remove child cs) := {
        | exist _ None Herr => None
        | exist _ (Some cs') Hr => clear_loop (S i) cs' } }.
Proof.
  apply remove_length in Hr. apply lookup_lt_Some in Hc. lia.
Defined.

(** The document after a mutation [f] of the element at [r]. *)
Fixpoint update_at (r : ref) (f : Element → Element) (e : Element) : Element :=
  match r with
  | [] => f e
  | i :: r' =>
      mkElement (tag e) (attrib e) (text e) (tail e)
        (alter (update_at r' f) i (children e))
  end.

Definition with_children (cs : list Element) (e : Element) : Element :=
  mkElement (tag e) (attrib e) (text e) (tail e) cs.

(** [has_anilist], the local function of [find_object]. *)
Definition has_anilist (element : node) : bool :=
  bool_decide (is_Some (find anilist_path element)).

Definition no_foreign_object : str :=
  py "No <foreignObject> elements found in target SVG.".
Definition value_error : str := py "ValueError: list.remove(x): x not in list".

(** [find_object(root, merge)]: the reference of the selected element and
    the document as the call leaves it. *)
Definition find_object (root : Element) (merge : bool) : M (ref * Element) :=
  foreign_object ← query foreign_object_path root;
  match foreign_object with
  | [] => err no_foreign_object
  | first :: _ =>
      let anilist_fos := filter (λ obj, has_anilist obj = true) foreign_object in
      let other_fos := filter (λ obj, has_anilist obj = false) foreign_object in
      if merge then mret ((default first (head anilist_fos)).1, root)
      else
        let target := default first (head other_fos) in
        match clear_loop 0 (kids target) with
        | Some cs => mret (target.1, update_at target.1 (with_children cs.*2) root)
        | None => raise value_error
        end
  end.

(** ** [build_anilist_section] *)

Definition img (uri : str) (width height : Z) : Element :=
  element Tag.IMG
    (<[py "src" := uri]> (<[py "width" := str_of_int width]>
       (<[py "height" := str_of_int height]>
          {[py "alt" := py "character"]})))
    [].

Definition build_anilist_section (images : list str) (width height : Z)
  : list Element :=
  let metrics := element Tag.DIV {[py "id" := py "metrics-end"]} [] in
  let characters :=
    element Tag.DIV {[py "class" := py "characters"]}
      ((λ uri, img uri width height) <$> images) in
  let anilist := element Tag.DIV {[py "class" := py "anilist"]} [characters] in
  let inner_section := element Tag.SECTION ∅ [anilist] in
  let row := element Tag.DIV {[py "class" := py "row fill-width"]} [inner_section] in
  let outer_section := element Tag.SECTION ∅ [row] in
  let items := element Tag.DIV {[py "class" := py "items-wrapper"]} [outer_section] in
  [items; metrics].

(** ** [inject] *)

(** What [parse_svg] finds at a path: no file ([path.is_file()] is
    false); a file on which [ET.parse] raises [ParseError]; a path on
    which [path.is_file()] or [ET.parse] raises another exception (an
    [OSError] on access, a [LookupError] for an unknown encoding), which
    nothing catches; or a document. *)
Inductive file : Type :=
| Malformed (parse_error : str)
| Unreadable (exc : str)
| Document (root : Element).

Definition parse_svg (fs : str → option file) (path : str) : M Element :=
  match fs path with
  | None => err (py "SVG not found: " ++ path)
  | Some (Malformed e) =>
      err (py "Failed to parse SVG '" ++ path ++ py "': " ++ e)
  | Some (Unreadable exc) => raise exc
  | Some (Document root) => mret root
  end.

(** [fo.set(key, value)] *)
Definition set (key value : str) (e : Element) : Element :=
  mkElement (tag e) (<[key := value]> (attrib e)) (text e) (tail e) (children e).

(** [fo.append(child)] *)
Definition append (child : Element) (e : Element) : Element :=
  with_children (children e ++ [child]) e.

(** [inject], up to the document it hands to [target_file.write]. *)
Definition inject (fs : str → option file) (target_svg source_svg : str)
  (max_images : option Z) (width height : Z) (merge : bool) : M Element :=
  source_file ← parse_svg fs source_svg;
  data_uris ← extract_uris_data source_file max_images;
  info (py "Pulled " ++ str_of_int (Z.of_nat (length data_uris))
        ++ py " image(s) from source");;
  target_file ← parse_svg fs target_svg;
  '(fo, target_file) ← find_object target_file merge;
  let target_file := update_at fo (set (py "x") (py "0")) target_file in
  let target_file := update_at fo (set (py "y") (py "0")) target_file in
  let target_file := update_at fo (set (py "width") (py "100%")) target_file in
  let target_file := update_at fo (set (py "height") (py "100%")) target_file in
  mret (foldl (λ doc child, update_at fo (append child) doc) target_file
          (build_anilist_section data_uris width height)).

(** How a call inside the [try] of [inject] ends: it returns, or it raises
    an exception [e], given as the text that [f"{e}"] prints. *)
Inductive attempt (A : Type) : Type :=
| Returned (a : A)
| Raised (e : str).
Arguments Returned {A} a.
Arguments Raised {A} e.

(** The output side of the environment: [path.with_suffix(suffix)] and
    [target_file.write(path, encoding="utf-8", xml_declaration=True)]. *)
Record output_side : Type := mkOutputSide {
  with_suffix : str → str → attempt str;
  write_to : str → Element → attempt ()
}.

(** [output or target_svg.with_suffix(".out.svg")]: a [Path] is never
    falsy, so a given [output] is taken. *)
Definition output_path (out : output_side) (target_svg : str)
  (output : option str) : attempt str :=
  match output with
  | Some path => Returned path
  | None => with_suffix out target_svg (py ".out.svg")
  end.

(** The [try] at the end of [inject], for the document [target_file]. *)
Definition write_output (out : output_side) (target_svg : str)
  (output : option str) (target_file : Element) : M () :=
  match output_path out target_svg output with
  | Raised e => err (py "Failed to write output SVG: " ++ e)
  | Returned path =>
      match write_to out path target_file with
      | Raised e => err (py "Failed to write output SVG: " ++ e)
      | Returned _ => info (py "Done --> " ++ path)
      end
  end.

(** [inject], the whole of it. *)
Definition inject_and_write (fs : str → option file) (out : output_side)
  (target_svg source_svg : str) (output : option str)
  (max_images : option Z) (width height : Z) (merge : bool) : M () :=
  target_file ← inject fs target_svg source_svg max_images width height merge;
  write_output out target_svg output target_file.

(** ** Document order and the vocabulary of the properties *)

(** [doc_before p q]: the element at [p] starts before the element at [q]
    in the document (an element precedes its descendants). *)
Fixpoint doc_before (p q : ref) : bool :=
  match p, q with
  | [], _ :: _ => true
  | i :: p', j :: q' => (i <? j)%nat || (i =? j)%nat && doc_before p' q'
  | _, _ => false
  end.

(** [left_of p q]: the element at [p] ends before the element at [q]
    starts. *)
Definition left_of (p q : ref) : Prop :=
  ∃ c i j a b, p = c ++ i :: a ∧ q = c ++ j :: b ∧ (i < j)%nat.

(** [q] lies strictly beneath [p]. *)
Definition beneath (p q : ref) : Prop := ∃ r, r ≠ [] ∧ q = p ++ r.

(** The elements of a list, every second one starting with the second. *)
Fixpoint every_other {A : Type} (l : list A) : list A :=
  match l with
  | _ :: b :: l' => b :: every_other l'
  | _ => []
  end.

(** A string with no leading whitespace. *)
Definition lstripped (s : str) : Prop :=
  match s with
  | c :: _ => isspace c = false
  | [] => True
  end.

(** [if tag == "*": tag = None] *)
Definition wildcard (tg : option str) : option str :=
  if decide (tg = Some star) then None else tg.

(** [for e in self._children: yield from e.iter(tag)], the children being
    numbered from [i]. *)
Definition iter_children (tg : option str) (p : ref)
  : nat → list Element → list node :=
  fix go i cs :=
    match cs with
    | [] => []
    | c :: cs' => iter tg (p ++ [i]) c ++ go (S i) cs'
    end.

(** Document order on nodes. *)
Definition node_before (n m : node) : Prop := doc_before n.1 m.1 = true.

Definition node_left_of (n m : node) : Prop := left_of n.1 m.1.

(** The node is an element of the document [root], at its reference. *)
Definition placed (root : Element) (n : node) : Prop :=
  get_at root n.1 = Some n.2.

(** An XHTML [div] whose [class] attribute is exactly [c]. *)
Definition div_of_class (c : string) (e : Element) : Prop :=
  tag e = Tag.DIV ∧ get e (py "class") = Some (py c).

(** What the strict path asks of an element at [q]: an XHTML [img] that is
    a child of a [div] of class [characters] that is a child of a [div] of
    class [anilist] beneath the document element. *)
Definition strict_candidate (root : Element) (q : ref) (x : Element) : Prop :=
  ∃ a i j ea ec,
    q = a ++ [i; j] ∧ a ≠ [] ∧
    get_at root a = Some ea ∧ div_of_class "anilist" ea ∧
    get_at root (a ++ [i]) = Some ec ∧ div_of_class "characters" ec ∧
    get_at root q = Some x ∧ tag x = Tag.IMG.

(** No [div] of class [anilist] lies inside another one. *)
Definition anilist_not_nested (root : Element) : Prop :=
  ∀ a b ea eb,
    a ≠ [] → get_at root a = Some ea → div_of_class "anilist" ea →
    get_at root b = Some eb → div_of_class "anilist" eb →
    ¬ beneath a b.

(** What one candidate contributes: the URI it adds and the warning it
    prints. *)
Definition accepted_of (uri : option str) : list str :=
  match uri with
  | Some u => if is_data_uri uri then [strip u] else []
  | None => []
  end.

Definition warning_of (label : str) (uri : option str) : list event :=
  match uri with
  | Some u =>
      if is_data_uri uri then []
      else if truthy uri then [Warn (label ++ slice_to 60 u ++ ellipsis)]
      else []
  | None => []
  end.

(** The URIs and the warnings of a list of candidates all of which are
    evaluated. *)
Definition accepted (uri_of : Element → option str) (cs : list node) : list str :=
  n ← cs; accepted_of (uri_of n.2).

Definition warnings (label : str) (uri_of : Element → option str)
  (cs : list node) : list event :=
  n ← cs; warning_of label (uri_of n.2).

(** [element.get("src")] *)
Definition src_of (element : Element) : option str := get element (py "src").

(** The shape the two loops share. *)
Fixpoint scan (label : str) (uri_of : Element → option str)
  (max_images : option Z) (cs : list node) (data_uris : list str)
  : M (flow (list str)) :=
  match cs with
  | [] => mret (Next data_uris)
  | element :: rest =>
      data_uris ← consider label (uri_of element.2) data_uris;
      if cap_reached max_images data_uris then mret (Return data_uris)
      else scan label uri_of max_images rest data_uris
  end.

Definition flow_value {A : Type} (f : flow A) : A :=
  match f with
  | Next a | Return a => a
  end.

(** The candidates of tiers 1 and 2, and the queries that find them. *)
Definition tier12 (root : Element) : list node :=
  match findall strict_path ([], root) with
  | [] => findall relaxed_path ([], root)
  | candidates => candidates
  end.

Definition queries12 (root : Element) : list event :=
  Query strict_path ::
  match findall strict_path ([], root) with
  | [] => [Query relaxed_path]
  | _ => []
  end.

Arguments queries12 : simpl never.
Arguments tier12 : simpl never.

(** C2 as it is stated: an XHTML [img] with a [src], child of an element of
    class [characters] that lies at any depth inside an element of class
    [anilist]. *)
Definition stated_strict_candidate (root : Element) (q : ref) (x : Element)
  : Prop :=
  get_at root q = Some x ∧ tag x = Tag.IMG ∧ is_Some (src_of x) ∧
  ∃ c i ec a ea,
    q = c ++ [i] ∧
    get_at root c = Some ec ∧ get ec (py "class") = Some (py "characters") ∧
    beneath a c ∧
    get_at root a = Some ea ∧ get ea (py "class") = Some (py "anilist").

(** A [foreignObject] element beneath the document element: what
    [".//svg:foreignObject"] enumerates. *)
Definition InsertionPoint (root : Element) (p : ref) : Prop :=
  p ≠ [] ∧ ∃ e, get_at root p = Some e ∧ tag e = FOREIGN_OBJECT.

(** The element at [p] contains an XHTML [div] of class [anilist]. *)
Definition has_marker (root : Element) (p : ref) : Prop :=
  ∃ m em, beneath p m ∧ get_at root m = Some em ∧ div_of_class "anilist" em.

(** What an element holds itself: its tag, attributes, text, tail and the
    number of its children. *)
Definition shallow (e : Element)
  : str * gmap str str * option str * option str * nat :=
  (tag e, attrib e, text e, tail e, length (children e)).

(** The [img] elements of a fragment, in document order. *)
Definition imgs_of (fragment : list Element) : list Element :=
  e ← fragment; (iter (Some Tag.IMG) [] e).*2.

Definition geometry (a : gmap str str) : gmap str str :=
  <[py "height" := py "100%"]>
    (<[py "width" := py "100%"]>
       (<[py "y" := py "0"]> (<[py "x" := py "0"]> a))).

(** The language of a regular expression: what [matches] decides. *)
Inductive in_lang : regex → str → Prop :=
| in_epsilon : in_lang Epsilon []
| in_char f c : f c = true → in_lang (CharSet f) [c]
| in_cat r s u v : in_lang r u → in_lang s v → in_lang (Cat r s) (u ++ v)
| in_alt_l r s u : in_lang r u → in_lang (Alt r s) u
| in_alt_r r s u : in_lang s u → in_lang (Alt r s) u
| in_star_nil r : in_lang (Star r) []
| in_star_cons r u v :
    in_lang r u → in_lang (Star r) v → in_lang (Star r) (u ++ v).

(** The shape of a data URI: ["data:image/"], a subtype without [;],
    [";base64,"], a payload of base64 characters and whitespace. *)
Definition data_uri_shape (s : str) : Prop :=
  ∃ subtype payload,
    s = py "data:image/" ++ subtype ++ py ";base64," ++ payload
    ∧ subtype ≠ [] ∧ Forall (λ c, not_semicolon c = true) subtype
    ∧ payload ≠ [] ∧ Forall (λ c, base64_or_space c = true) payload.

(** A cap that is absent or not negative. *)
Definition cap_sane (max_images : option Z) : Prop :=
  match max_images with
  | Some k => 0 ≤ k
  | None => True
  end.

(** The first [max_images] URIs of a list, all of them when there is no
    cap or the cap is 0. *)
Definition capped (max_images : option Z) (uris : list str) : list str :=
  match max_images with
  | Some k => if 0 <? k then take (Z.to_nat k) uris else uris
  | None => uris
  end.

(** ** Sample documents *)

Module Sample.
Definition svg (cs : list Element) : Element :=
  element (qname Namespace.SVG "svg") ∅ cs.
Definition div (class : string) (cs : list Element) : Element :=
  element Tag.DIV {[py "class" := py class]} cs.
Definition section (cs : list Element) : Element := element Tag.SECTION ∅ cs.
Definition image (src : string) : Element :=
  element Tag.IMG {[py "src" := py src]} [].
Definition foreign (cs : list Element) : Element :=
  element FOREIGN_OBJECT ∅ cs.

Definition uri_a : string := "data:image/png;base64,AAAA".
Definition uri_b : string := "data:image/png;base64,BBBB".
Definition link : string := "https://example.org/a.png".

(** [.anilist > .characters] holding a data URI, then a link. *)
Definition good_then_link : Element :=
  svg [div "anilist" [div "characters" [image uri_a; image link]]].

(** [.characters] one level further down inside [.anilist]. *)
Definition deep_characters : Element :=
  svg [div "anilist" [section [div "characters" [image uri_a]]]].

(** A [.anilist] inside a [.anilist], the inner one first. *)
Definition nested_anilist : Element :=
  svg [div "anilist"
         [div "anilist" [div "characters" [image uri_b]];
          div "characters" [image uri_a]]].

(** No [.anilist] at all: two [svg:image] elements. *)
Definition images_only : Element :=
  svg [element Tag.IMAGE {[py "href" := py uri_a]} [];
       element Tag.IMAGE {[py "href" := py link]} []].

(** A populated [foreignObject], then one with two children. *)
Definition two_objects : Element :=
  svg [foreign [div "anilist" []]; foreign [div "left" []; div "right" []]].

(** The files of a run. *)
Definition files (path : str) : option file :=
  if decide (path = py "source.svg") then Some (Document good_then_link)
  else if decide (path = py "target.svg") then Some (Document two_objects)
  else None.
End Sample.

(** * Properties *)

(** ** Strings *)

Section strings.
Implicit Types s t : str.

Lemma lstrip_lstripped s : lstripped (lstrip s).
Proof.
  induction s as [|c s IH]; simpl; [done|].
  destruct (isspace c) eqn:E; [done|]. by simpl.
Qed.

Lemma lstripped_lstrip s : lstripped s → lstrip s = s.
Proof. destruct s as [|c s]; simpl; [done|]. by intros ->. Qed.

Lemma lstrip_idemp s : lstrip (lstrip s) = lstrip s.
Proof. apply lstripped_lstrip, lstrip_lstripped. Qed.

Lemma lstrip_suffix s : ∃ w, s = w ++ lstrip s.
Proof.
  induction s as [|c s [w IH]]; simpl; [by exists []|].
  destruct (isspace c); [|by exists []].
  exists (c :: w). simpl. by f_equal.
Qed.

Lemma rstrip_lstripped s : lstripped s → lstripped (rstrip s).
Proof.
  intros Hs. unfold rstrip.
  destruct (lstrip_suffix (reverse s)) as [w Hw].
  apply (f_equal reverse) in Hw.
  rewrite reverse_involutive, reverse_app in Hw.
  destruct (reverse (lstrip (reverse s))) as [|c u]; [done|].
  rewrite Hw in Hs. by simpl in *.
Qed.

Lemma strip_idemp s : strip (strip s) = strip s.
Proof.
  unfold strip at 1.
  rewrite (lstripped_lstrip (strip s)).
  - unfold strip, rstrip. by rewrite reverse_involutive, lstrip_idemp.
  - apply rstrip_lstripped, lstrip_lstripped.
Qed.

(** A value the pattern rejects is not the stripped form of a value it
    accepts. *)
Lemma rejected_not_strip_of_accepted u v :
  is_data_uri (Some u) = true → truthy (Some v) = true →
  is_data_uri (Some v) = false → strip u ≠ v.
Proof.
  unfold is_data_uri. intros Hu Hv Hr <-. rewrite Hv in Hr.
  destruct (truthy (Some u)); [|done].
  rewrite strip_idemp in Hr. congruence.
Qed.
End strings.

Example is_data_uri_png :
  is_data_uri (Some (py "data:image/png;base64,iVBORw0KGgo=")) = true.
Proof. by vm_compute. Qed.

Example is_data_uri_padded :
  is_data_uri (Some (py "  data:image/svg+xml;base64,AA BB" ++ [10%N])) = true.
Proof. by vm_compute. Qed.

Example is_data_uri_link : is_data_uri (Some (py "https://example.org/a.png")) = false.
Proof. by vm_compute. Qed.

Example is_data_uri_no_subtype :
  is_data_uri (Some (py "data:image/;base64,AAAA")) = false.
Proof. by vm_compute. Qed.

Example is_data_uri_no_payload :
  is_data_uri (Some (py "data:image/png;base64," ++ [10%N])) = false.
Proof. by vm_compute. Qed.

Example is_data_uri_empty : is_data_uri (Some []) = false ∧ is_data_uri None = false.
Proof. done. Qed.

Example str_of_int_samples :
  str_of_int 36 = py "36" ∧ str_of_int 0 = py "0" ∧ str_of_int (-5) = py "-5".
Proof. split_and!; by vm_compute. Qed.

(** ** Document order *)

Section order.
Implicit Types p q r : ref.

Lemma doc_before_app p a b : doc_before (p ++ a) (p ++ b) = doc_before a b.
Proof.
  induction p as [|i p IH]; simpl; [done|].
  by rewrite Nat.ltb_irrefl, Nat.eqb_refl, IH.
Qed.

Lemma doc_before_beneath p q : beneath p q → doc_before p q = true.
Proof.
  intros (r & Hr & ->). rewrite <-(app_nil_r p) at 1.
  rewrite doc_before_app. by destruct r.
Qed.

Lemma left_of_doc_before p q : left_of p q → doc_before p q = true.
Proof.
  intros (c & i & j & a & b & -> & -> & Hij).
  rewrite doc_before_app. simpl.
  by apply Nat.ltb_lt in Hij as ->.
Qed.

Lemma left_of_app p q a b : left_of p q → left_of (p ++ a) (q ++ b).
Proof.
  intros (c & i & j & x & y & -> & -> & Hij).
  exists c, i, j, (x ++ a), (y ++ b). by rewrite <-!app_assoc.
Qed.

Lemma left_of_siblings p i j a b :
  (i < j)%nat → left_of (p ++ i :: a) (p ++ j :: b).
Proof. intros. by exists p, i, j, a, b. Qed.

Lemma doc_before_irrefl p : doc_before p p = false.
Proof.
  induction p as [|i p IH]; simpl; [done|].
  by rewrite Nat.ltb_irrefl, Nat.eqb_refl, IH.
Qed.

(** Two elements in document order are nested or side by side. *)
Lemma doc_before_cases p q :
  doc_before p q = true → beneath p q ∨ left_of p q.
Proof.
  revert q; induction p as [|i p IH]; intros [|j q]; simpl; try done.
  - intros _. left. by exists (j :: q).
  - intros [Hij|[Hij Hpq]%andb_prop]%orb_prop.
    + right. apply Nat.ltb_lt in Hij. by exists [], i, j, p, q.
    + apply Nat.eqb_eq in Hij as ->.
      destruct (IH _ Hpq) as [(r & Hr & ->)|(c & a & b & x & y & -> & -> & Hab)].
      * left. by exists r.
      * right. by exists (j :: c), a, b, x, y.
Qed.
End order.

(** ** Trees *)

Lemma Element_ind (P : Element → Prop) :
  (∀ tg a tx tl cs, Forall P cs → P (mkElement tg a tx tl cs)) → ∀ e, P e.
Proof.
  intros H. fix IH 1. intros [tg a tx tl cs]. apply H.
  induction cs as [|c cs IHcs]; constructor; [apply IH|apply IHcs].
Qed.

Section trees.
Implicit Types (e x : Element) (p q r : ref) (n m : node) (tg : str).

Lemma iter_unfold (otg : option str) p e :
  iter otg p e =
    (if tag_selected (wildcard otg) e then [(p, e)] else [])
    ++ iter_children (wildcard otg) p 0 (children e).
Proof. by destruct e. Qed.

Lemma wildcard_tag tg : tg ≠ star → wildcard (Some tg) = Some tg.
Proof. intros. unfold wildcard. case_decide; congruence. Qed.

Lemma get_at_app e p r : get_at e (p ++ r) = get_at e p ≫= λ x, get_at x r.
Proof.
  revert e; induction p as [|i p IH]; intros e; simpl; [done|].
  destruct (children e !! i) as [c|]; simpl; [apply IH|done].
Qed.

Lemma get_at_snoc e p i x :
  get_at e p = Some x → get_at e (p ++ [i]) = children x !! i.
Proof.
  intros H. rewrite get_at_app, H. simpl.
  by destruct (children x !! i).
Qed.

(** [iter] with a tag keeps the elements of [iter()] that carry it. *)
Lemma iter_filter tg p e :
  tg ≠ star →
  iter (Some tg) p e = filter (λ n, tag n.2 = tg) (iter None p e).
Proof.
  intros Htg. revert p.
  induction e as [t a tx tl cs IH] using Element_ind; intros p.
  rewrite !iter_unfold, wildcard_tag by done. simpl.
  rewrite filter_cons. simpl. unfold bool_decide.
  assert (∀ i, iter_children (Some tg) p i cs
               = filter (λ n, tag n.2 = tg) (iter_children None p i cs)) as Hcs.
  { induction IH as [|c cs Hc _ IHcs]; intros i; simpl; [done|].
    by rewrite filter_app, Hc, IHcs. }
  rewrite Hcs. by destruct (decide_rel _ _ _).
Qed.

Lemma elem_of_iter_children p i cs q x :
  (q, x) ∈ iter_children None p i cs ↔
  ∃ j c, cs !! j = Some c ∧ (q, x) ∈ iter None (p ++ [i + j]%nat) c.
Proof.
  revert i; induction cs as [|c cs IH]; intros i; simpl.
  - rewrite elem_of_nil. split; [done|]. by intros (j & c & ? & _).
  - rewrite elem_of_app, IH. split.
    + intros [H|(j & c' & Hj & H)].
      * exists 0%nat, c. by rewrite Nat.add_0_r.
      * exists (S j), c'. by rewrite Nat.add_succ_r.
    + intros (j & c' & Hj & H). destruct j as [|j]; simpl in Hj.
      * left. injection Hj as ->. by rewrite Nat.add_0_r in H.
      * right. exists j, c'. by rewrite Nat.add_succ_r in H.
Qed.

(** [iter()] yields exactly the elements of the subtree. *)
Lemma elem_of_iter p e q x :
  (q, x) ∈ iter None p e ↔ ∃ r, q = p ++ r ∧ get_at e r = Some x.
Proof.
  revert p q.
  induction e as [t a tx tl cs IH] using Element_ind; intros p q.
  rewrite iter_unfold. simpl. rewrite elem_of_cons.
  rewrite elem_of_iter_children. split.
  - intros [[= -> ->]|(j & c & Hj & H)].
    + exists []. by rewrite app_nil_r.
    + rewrite Forall_forall in IH.
      apply IH in H as (r & -> & Hr); [|by eapply list_elem_of_lookup_2].
      exists (j :: r). rewrite <-app_assoc. simpl. by rewrite Hj.
  - intros ([|j r] & -> & Hr); simpl in Hr.
    + left. injection Hr as <-. by rewrite app_nil_r.
    + right. destruct (cs !! j) as [c|] eqn:Hj; [|done]. simpl in Hr.
      exists j, c. split; [done|].
      rewrite Forall_forall in IH. apply IH; [by eapply list_elem_of_lookup_2|].
      exists r. by rewrite <-app_assoc.
Qed.

Lemma node_before_beneath p e :
  Forall (node_before (p, e)) (iter_children None p 0 (children e)).
Proof.
  apply Forall_forall. intros [q x].
  rewrite elem_of_iter_children. intros (j & c & _ & H).
  apply elem_of_iter in H as (r & -> & _).
  apply doc_before_beneath. exists ([j] ++ r).
  split; [done|]. by rewrite <-app_assoc.
Qed.

(** [iter()] yields the elements in document order. *)
Lemma iter_sorted p e : StronglySorted node_before (iter None p e).
Proof.
  revert p. induction e as [t a tx tl cs IH] using Element_ind; intros p.
  rewrite iter_unfold. simpl. apply StronglySorted_cons. split.
  { apply (node_before_beneath p (mkElement t a tx tl cs)). }
  generalize 0%nat as i.
  induction IH as [|c cs Hc _ IHcs]; intros i; simpl; [constructor|].
  apply StronglySorted_app. split_and!; [|apply Hc|apply IHcs].
  intros [q1 x1] [q2 x2] H1 H2.
  apply elem_of_iter in H1 as (r1 & -> & _).
  apply elem_of_iter_children in H2 as (j & c' & _ & H2).
  apply elem_of_iter in H2 as (r2 & -> & _).
  apply left_of_doc_before. rewrite <-!app_assoc. simpl.
  apply left_of_siblings. lia.
Qed.

Lemma elem_of_kids p e q x :
  (q, x) ∈ kids (p, e) ↔ ∃ i, q = p ++ [i] ∧ children e !! i = Some x.
Proof.
  unfold kids. simpl. rewrite elem_of_lookup_imap. split.
  - intros (i & c & [= -> ->] & Hi). by exists i.
  - intros (i & -> & Hi). by exists i, x.
Qed.

Lemma kids_sorted n : StronglySorted node_left_of (kids n).
Proof.
  destruct n as [p e]. unfold kids. simpl.
  assert (∀ k, StronglySorted node_left_of
                 (imap (λ i c, (p ++ [k + i]%nat, c)) (children e))) as H.
  { induction (children e) as [|c cs IH]; intros k; simpl; [constructor|].
    constructor.
    - rewrite (imap_ext _ (λ i c, (p ++ [S k + i]%nat, c)))
        by (intros; simpl; do 3 f_equal; lia).
      apply IH.
    - apply Forall_forall. intros [q x].
      rewrite elem_of_lookup_imap. intros (i & y & [= -> ->] & _).
      apply left_of_siblings. simpl. lia. }
  apply (H 0%nat).
Qed.
End trees.

(** ** Sorted lists *)

Section sorted.
Context {A : Type} (R : relation A).

Lemma StronglySorted_filter (P : A → Prop) `{!∀ x, Decision (P x)} l :
  StronglySorted R l → StronglySorted R (filter P l).
Proof.
  induction 1 as [|x l _ IH Hx]; [constructor|].
  rewrite filter_cons. case_decide; [|done].
  constructor; [done|].
  apply Forall_forall. intros y [_ Hy]%list_elem_of_filter.
  rewrite Forall_forall in Hx. auto.
Qed.

Lemma StronglySorted_weaken (R' : relation A) l :
  StronglySorted R l →
  (∀ x y, x ∈ l → y ∈ l → R x y → R' x y) →
  StronglySorted R' l.
Proof.
  induction 1 as [|x l _ IH Hx]; intros HR; [constructor|].
  constructor.
  - apply IH. intros y z Hy Hz. apply HR; by right.
  - rewrite Forall_forall in *. intros y Hy.
    apply HR; [left|by right|auto].
Qed.

Lemma StronglySorted_NoDup l :
  (∀ x, ¬ R x x) → StronglySorted R l → NoDup l.
Proof.
  intros Hirr. induction 1 as [|x l _ IH Hx]; constructor; [|done].
  rewrite Forall_forall in Hx. intros Hin. by apply (Hirr x), Hx.
Qed.

(** The head of a filtered sorted list is the first element with the
    property. *)
Lemma StronglySorted_head_filter (P : A → Prop) `{!∀ x, Decision (P x)} l x :
  StronglySorted R l → head (filter P l) = Some x →
  x ∈ l ∧ P x ∧ ∀ y, y ∈ l → P y → y = x ∨ R x y.
Proof.
  induction 1 as [|z l _ IH Hz]; [done|].
  rewrite filter_cons. case_decide as Hp; simpl.
  - intros [= ->]. split_and!; [left|done|].
    intros y [->|Hy]%elem_of_cons _; [by left|right].
    rewrite Forall_forall in Hz. auto.
  - intros Hh. destruct (IH Hh) as (Hx & HPx & Hfirst).
    split_and!; [by right|done|].
    intros y [->|Hy]%elem_of_cons HPy; [done|auto].
Qed.
End sorted.

(** ** Selectors *)

Section selectors.
Implicit Types (e x root : Element) (p q r : ref) (n m : node) (tg : str).

Lemma node_left_of_before n m : node_left_of n m → node_before n m.
Proof. apply left_of_doc_before. Qed.

Lemma findall_descendant tg n :
  findall [SelfStep; Descendant tg] n
  = filter (λ m : node, m.1 ≠ n.1) (iter (Some tg) n.1 n.2).
Proof. unfold findall. simpl. apply app_nil_r. Qed.

Lemma elem_of_descendant tg p e q x :
  tg ≠ star →
  (q, x) ∈ findall [SelfStep; Descendant tg] (p, e) ↔
  ∃ r, r ≠ [] ∧ q = p ++ r ∧ get_at e r = Some x ∧ tag x = tg.
Proof.
  intros Htg. rewrite findall_descendant, iter_filter by done. simpl.
  rewrite !list_elem_of_filter, elem_of_iter. simpl. split.
  - intros (Hq & Hx & r & -> & Hr). exists r. split_and!; try done.
    intros ->. by rewrite app_nil_r in Hq.
  - intros (r & Hr & -> & Hx & Ht). split_and!; [|done|by exists r].
    intros H. apply Hr. apply (app_inv_head p). by rewrite app_nil_r.
Qed.

Lemma descendant_sorted tg n :
  tg ≠ star → StronglySorted node_before (findall [SelfStep; Descendant tg] n).
Proof.
  intros. rewrite findall_descendant, iter_filter by done.
  do 2 apply StronglySorted_filter. apply iter_sorted.
Qed.

Lemma DIV_not_star : Tag.DIV ≠ star.
Proof. by vm_compute. Qed.
Lemma IMG_not_star : Tag.IMG ≠ star.
Proof. by vm_compute. Qed.
Lemma FOREIGN_OBJECT_not_star : FOREIGN_OBJECT ≠ star.
Proof. by vm_compute. Qed.

(** The prefixed names of the paths are the tags of [Tag]. *)
Lemma prefixed_tags :
  prefixed "xhtml" "div" = Tag.DIV ∧ prefixed "xhtml" "img" = Tag.IMG
  ∧ prefixed "svg" "image" = Tag.IMAGE
  ∧ prefixed "svg" "foreignObject" = FOREIGN_OBJECT.
Proof. split_and!; by vm_compute. Qed.

Lemma findall_anilist n :
  findall anilist_path n
  = filter (λ m : node, get m.2 (py "class") = Some (py "anilist"))
      (findall [SelfStep; Descendant Tag.DIV] n).
Proof.
  destruct prefixed_tags as (Hdiv & _). unfold anilist_path. by rewrite Hdiv.
Qed.

(** The [div.anilist] elements strictly beneath an element. *)
Lemma elem_of_anilist p e q x :
  (q, x) ∈ findall anilist_path (p, e) ↔
  ∃ r, r ≠ [] ∧ q = p ++ r ∧ get_at e r = Some x ∧ div_of_class "anilist" x.
Proof.
  rewrite findall_anilist, list_elem_of_filter,
    elem_of_descendant by apply DIV_not_star.
  unfold div_of_class. simpl. split.
  - intros (Hc & r & Hr & -> & Hx & Ht). by exists r.
  - intros (r & Hr & -> & Hx & Ht & Hc). split; [done|]. by exists r.
Qed.

Lemma anilist_sorted n : StronglySorted node_before (findall anilist_path n).
Proof.
  rewrite findall_anilist.
  apply StronglySorted_filter, descendant_sorted, DIV_not_star.
Qed.

(** The child step [/tag[@class='c']] or [/tag]. *)
Lemma elem_of_select_child tg (l : list node) q x :
  (q, x) ∈ select (Child tg) l ↔
  ∃ p e i, (p, e) ∈ l ∧ q = p ++ [i] ∧ children e !! i = Some x ∧ tag x = tg.
Proof.
  simpl. rewrite list_elem_of_bind. split.
  - intros ([p e] & [Ht H]%list_elem_of_filter & Hl).
    apply elem_of_kids in H as (i & -> & Hi). by exists p, e, i.
  - intros (p & e & i & Hl & -> & Hi & Ht). exists (p, e).
    split; [|done]. apply list_elem_of_filter. split; [done|].
    apply elem_of_kids. by exists i.
Qed.

Lemma select_child_sorted tg (l : list node) :
  StronglySorted node_left_of l →
  StronglySorted node_left_of (select (Child tg) l).
Proof.
  simpl. induction 1 as [|n l _ IH Hn]; [constructor|].
  rewrite bind_cons. apply StronglySorted_app. split_and!; [|..|done].
  - intros [q1 x1] [q2 x2] [_ H1]%list_elem_of_filter
      ([p e] & [_ H2]%list_elem_of_filter & Hl)%list_elem_of_bind.
    destruct n as [p0 e0].
    apply elem_of_kids in H1 as (i & -> & _).
    apply elem_of_kids in H2 as (j & -> & _).
    rewrite Forall_forall in Hn. apply left_of_app, (Hn _ Hl).
  - apply StronglySorted_filter, kids_sorted.
Qed.

Lemma select_child_NoDup tg (l : list node) :
  NoDup l.*1 → NoDup (select (Child tg) l).*1.
Proof.
  simpl. induction l as [|[p e] l IH]; [constructor|].
  rewrite fmap_cons, NoDup_cons. intros [Hp Hl].
  rewrite bind_cons, fmap_app. apply NoDup_app. split_and!; [| |auto].
  - apply (StronglySorted_NoDup (λ a b, left_of a b)).
    + intros a Ha%left_of_doc_before. by rewrite doc_before_irrefl in Ha.
    + apply StronglySorted_fmap with (R1 := node_left_of); [done|].
      apply StronglySorted_filter, kids_sorted.
  - intros q ([q1 x1] & -> & [_ H1]%list_elem_of_filter)%list_elem_of_fmap
      ([q2 x2] & Hq & ([p2 e2] & [_ H2]%list_elem_of_filter & H3)%list_elem_of_bind)%list_elem_of_fmap.
    apply elem_of_kids in H1 as (i & -> & _).
    apply elem_of_kids in H2 as (j & -> & _).
    simpl in Hq. apply app_inj_tail in Hq as [-> _].
    apply Hp. apply list_elem_of_fmap. by exists (p2, e2).
Qed.

Lemma select_attr_sorted (R : relation node) key value (l : list node) :
  StronglySorted R l → StronglySorted R (select (AttrEq key value) l).
Proof. apply StronglySorted_filter. Qed.

Lemma filter_fst_NoDup (P : node → Prop) `{!∀ n, Decision (P n)} (l : list node) :
  NoDup l.*1 → NoDup (filter P l).*1.
Proof.
  induction l as [|n l IH]; [done|].
  rewrite fmap_cons, NoDup_cons. intros [Hn Hl].
  rewrite filter_cons. case_decide; [|auto].
  rewrite fmap_cons. apply NoDup_cons. split; [|auto].
  intros (m & Hm & [_ Hin]%list_elem_of_filter)%list_elem_of_fmap.
  apply Hn. apply list_elem_of_fmap. by exists m.
Qed.

Lemma descendant_NoDup tg n :
  tg ≠ star → NoDup (findall [SelfStep; Descendant tg] n).*1.
Proof.
  intros Htg.
  apply (StronglySorted_NoDup (λ a b, doc_before a b = true)).
  - intros a. by rewrite doc_before_irrefl.
  - apply StronglySorted_fmap with (R1 := node_before); [done|].
    by apply descendant_sorted.
Qed.
End selectors.

(** ** The three tiers *)

Section tiers.
Implicit Types (e x root : Element) (p q r : ref) (n m : node) (tg : str).

Lemma findall_strict n :
  findall strict_path n
  = select (Child Tag.IMG)
      (select (class_is "characters")
         (select (Child Tag.DIV) (findall anilist_path n))).
Proof.
  destruct prefixed_tags as (Hdiv & Himg & _).
  unfold strict_path, findall. by rewrite foldl_app, Hdiv, Himg.
Qed.

Lemma findall_relaxed n :
  findall relaxed_path n
  = select (Descendant Tag.IMG) (findall anilist_path n).
Proof.
  destruct prefixed_tags as (_ & Himg & _).
  unfold relaxed_path, findall. by rewrite foldl_app, Himg.
Qed.

Lemma elem_of_select_descendant tg (l : list node) q x :
  tg ≠ star →
  (q, x) ∈ select (Descendant tg) l ↔
  ∃ p e r, (p, e) ∈ l ∧ r ≠ [] ∧ q = p ++ r ∧ get_at e r = Some x ∧ tag x = tg.
Proof.
  intros Htg. simpl. rewrite list_elem_of_bind. split.
  - intros ([p e] & H & Hl).
    rewrite <-(findall_descendant tg (p, e)), elem_of_descendant in H by done.
    destruct H as (r & ? & ? & ? & ?). by exists p, e, r.
  - intros (p & e & r & Hl & Hr & -> & Hx & Ht). exists (p, e).
    split; [|done].
    rewrite <-(findall_descendant tg (p, e)), elem_of_descendant by done.
    by exists r.
Qed.

Lemma elem_of_strict root q x :
  (q, x) ∈ findall strict_path ([], root) ↔ strict_candidate root q x.
Proof.
  rewrite findall_strict, elem_of_select_child. unfold strict_candidate. split.
  - intros (pc & ec & j & [Hc H]%list_elem_of_filter & -> & Hj & Ht).
    apply elem_of_select_child in H as (a & ea & i & Ha & -> & Hi & Htc).
    apply elem_of_anilist in Ha as (r & Hr & -> & Hea & Hdiv). simpl in *.
    assert (get_at root (r ++ [i]) = Some ec) as Hec
      by by rewrite (get_at_snoc _ _ _ _ Hea).
    exists r, i, j, ea, ec. rewrite <-app_assoc. split_and!; try done.
    rewrite (app_assoc r [i] [j]). by rewrite (get_at_snoc _ _ _ _ Hec).
  - intros (a & i & j & ea & ec & -> & Ha & Hea & Hdiv & Hec & [Htc Hc] & Hx & Ht).
    exists (a ++ [i]), ec, j. split_and!; [|by rewrite <-app_assoc| |done].
    + apply list_elem_of_filter. split; [done|].
      apply elem_of_select_child. exists a, ea, i. split_and!; try done.
      * apply elem_of_anilist. by exists a.
      * by rewrite <-(get_at_snoc root a i ea).
    + change (a ++ [i; j]) with (a ++ [i] ++ [j]) in Hx.
      rewrite app_assoc in Hx. by rewrite (get_at_snoc _ _ _ _ Hec) in Hx.
Qed.

Lemma elem_of_relaxed root q x :
  (q, x) ∈ findall relaxed_path ([], root) ↔
  ∃ a ea r, a ≠ [] ∧ get_at root a = Some ea ∧ div_of_class "anilist" ea ∧
            r ≠ [] ∧ q = a ++ r ∧ get_at root q = Some x ∧ tag x = Tag.IMG.
Proof.
  rewrite findall_relaxed, elem_of_select_descendant by apply IMG_not_star.
  split.
  - intros (a & ea & r & Ha & Hr & -> & Hx & Ht).
    apply elem_of_anilist in Ha as (a' & Ha' & -> & Hea & Hdiv). simpl in *.
    exists a', ea, r. split_and!; try done. by rewrite get_at_app, Hea.
  - intros (a & ea & r & Ha & Hea & Hdiv & Hr & -> & Hx & Ht).
    exists a, ea, r. split_and!; try done.
    + apply elem_of_anilist. by exists a.
    + by rewrite get_at_app, Hea in Hx.
Qed.

Lemma strict_NoDup n : NoDup (findall strict_path n).*1.
Proof.
  rewrite findall_strict.
  apply select_child_NoDup, filter_fst_NoDup, select_child_NoDup.
  rewrite findall_anilist.
  apply filter_fst_NoDup, descendant_NoDup, DIV_not_star.
Qed.

Lemma strict_sorted root :
  anilist_not_nested root →
  StronglySorted node_left_of (findall strict_path ([], root)).
Proof.
  intros Hnest. rewrite findall_strict.
  apply select_child_sorted, select_attr_sorted, select_child_sorted.
  apply (StronglySorted_weaken node_before); [apply anilist_sorted|].
  intros [a ea] [b eb] Ha Hb Hab.
  apply elem_of_anilist in Ha as (ra & Hra & -> & Hea & Hda).
  apply elem_of_anilist in Hb as (rb & Hrb & -> & Heb & Hdb).
  destruct (doc_before_cases _ _ Hab) as [Hin|Hleft]; [|done].
  by destruct (Hnest ra rb ea eb).
Qed.
End tiers.

(** ** The scanning loops *)

Section loops.
Context (label : str) (uri_of : Element → option str).
Implicit Types (max : option Z) (cs pre rest : list node) (acc : list str).

Lemma bind_ret {A B} (f : A → M B) (tr : list event) (a : A) :
  (tr, Ret a) ≫= f = (tr ++ trace (f a), result (f a)).
Proof. done. Qed.

Lemma mret_bind {A B} (f : A → M B) (a : A) :
  mret a ≫= f = (trace (f a), result (f a)).
Proof. done. Qed.

Lemma consider_eq uri acc :
  consider label uri acc = (warning_of label uri, Ret (acc ++ accepted_of uri)).
Proof.
  unfold consider, warning_of, accepted_of.
  destruct uri as [u|]; [|by rewrite app_nil_r].
  destruct (is_data_uri (Some u)); [done|].
  destruct (truthy (Some u)); by rewrite app_nil_r.
Qed.

Lemma scan_cons max n rest acc :
  scan label uri_of max (n :: rest) acc =
    let acc' := acc ++ accepted_of (uri_of n.2) in
    if cap_reached max acc'
    then (warning_of label (uri_of n.2), Ret (Return acc'))
    else (warning_of label (uri_of n.2)
            ++ trace (scan label uri_of max rest acc'),
          result (scan label uri_of max rest acc')).
Proof.
  simpl. rewrite consider_eq, bind_ret.
  destruct (cap_reached max _); [|done].
  simpl. by rewrite app_nil_r.
Qed.

Lemma length_accepted_of uri : (length (accepted_of uri) ≤ 1)%nat.
Proof.
  unfold accepted_of. destruct uri; [|simpl; lia].
  destruct (is_data_uri _); simpl; lia.
Qed.

(** The test is monotone: once reached, adding URIs keeps it reached. *)
Lemma cap_reached_app max acc more :
  cap_reached max (acc ++ more) = false → cap_reached max acc = false.
Proof.
  unfold cap_reached. destruct max as [m|]; [|done].
  rewrite length_app. destruct (m =? 0); simpl; [done|].
  rewrite !Z.leb_gt. lia.
Qed.

(** Scanning a prefix during which the cap is not reached. *)
Lemma scan_app max pre rest acc :
  cap_reached max (acc ++ accepted uri_of pre) = false →
  scan label uri_of max (pre ++ rest) acc =
    (warnings label uri_of pre
       ++ trace (scan label uri_of max rest (acc ++ accepted uri_of pre)),
     result (scan label uri_of max rest (acc ++ accepted uri_of pre))).
Proof.
  revert acc. induction pre as [|n pre IH]; intros acc Hcap.
  - unfold accepted. simpl. rewrite app_nil_r.
    by destruct (scan label uri_of max rest acc).
  - unfold accepted, warnings in *. rewrite !bind_cons, app_assoc in *.
    rewrite <-app_comm_cons, scan_cons. cbv zeta.
    rewrite (cap_reached_app _ _ _ Hcap), (IH _ Hcap).
    unfold trace, result. simpl. by rewrite app_assoc.
Qed.

Lemma scan_through max cs acc :
  cap_reached max (acc ++ accepted uri_of cs) = false →
  scan label uri_of max cs acc =
    (warnings label uri_of cs, Ret (Next (acc ++ accepted uri_of cs))).
Proof.
  intros Hcap. rewrite <-(app_nil_r cs) at 1.
  rewrite scan_app by done. simpl. by rewrite app_nil_r.
Qed.

(** The scan returns at the candidate after which the cap is reached;
    what follows that candidate is not looked at. *)
Lemma scan_stop max pre n rest acc :
  cap_reached max (acc ++ accepted uri_of pre) = false →
  cap_reached max (acc ++ accepted uri_of (pre ++ [n])) = true →
  scan label uri_of max (pre ++ n :: rest) acc =
    (warnings label uri_of (pre ++ [n]),
     Ret (Return (acc ++ accepted uri_of (pre ++ [n])))).
Proof.
  intros Hopen Hcap. rewrite scan_app, scan_cons by done. cbv zeta.
  unfold accepted, warnings in *.
  rewrite !bind_app, !bind_cons, !app_assoc in *. simpl in *.
  rewrite !app_nil_r in *. by rewrite Hcap.
Qed.

Lemma scan_total max cs acc :
  ∃ f, result (scan label uri_of max cs acc) = Ret f.
Proof.
  revert acc. induction cs as [|n cs IH]; intros acc; [by eexists|].
  rewrite scan_cons. cbv zeta. destruct (cap_reached _ _); [by eexists|].
  apply IH.
Qed.

Lemma scan_trace max cs acc ev :
  ev ∈ trace (scan label uri_of max cs acc) → ∃ msg, ev = Warn msg.
Proof.
  revert acc. induction cs as [|n cs IH]; intros acc.
  { simpl. by intros ?%elem_of_nil. }
  rewrite scan_cons. cbv zeta.
  assert (ev ∈ warning_of label (uri_of n.2) → ∃ msg, ev = Warn msg) as Hw.
  { unfold warning_of. destruct (uri_of n.2) as [u|]; [|by intros ?%elem_of_nil].
    destruct (is_data_uri _); [by intros ?%elem_of_nil|].
    destruct (truthy _); [|by intros ?%elem_of_nil].
    intros ->%list_elem_of_singleton. by eexists. }
  destruct (cap_reached _ _); simpl; [done|].
  rewrite elem_of_app. intros [?|?]; [auto|by eapply IH].
Qed.

Lemma scan_next max cs acc d :
  result (scan label uri_of max cs acc) = Ret (Next d) →
  d = acc ++ accepted uri_of cs.
Proof.
  revert acc. induction cs as [|n cs IH]; intros acc.
  - unfold accepted. simpl. rewrite app_nil_r. by intros [= <-].
  - rewrite scan_cons. cbv zeta. destruct (cap_reached _ _); [done|].
    simpl. intros ->%IH. by rewrite <-app_assoc.
Qed.

(** With a positive cap [k] the scan never holds more than [k] URIs. *)
Lemma scan_length k cs acc f :
  0 < k → Z.of_nat (length acc) < k →
  result (scan label uri_of (Some k) cs acc) = Ret f →
  Z.of_nat (length (flow_value f)) ≤ k.
Proof.
  intros Hk. revert acc. induction cs as [|n cs IH]; intros acc Hacc.
  - simpl. intros [= <-]. simpl. lia.
  - rewrite scan_cons. cbv zeta.
    pose proof (length_accepted_of (uri_of n.2)) as Hone.
    destruct (cap_reached _ _) eqn:Hcap.
    + intros [= <-]. simpl. rewrite length_app. lia.
    + simpl. apply IH. unfold cap_reached in Hcap.
      destruct (k =? 0) eqn:E; [lia|]. simpl in Hcap.
      by apply Z.leb_gt in Hcap.
Qed.

(** Every URI the scan holds was there before or is the stripped form of
    a value the pattern accepts. *)
Lemma scan_values max cs acc f u :
  result (scan label uri_of max cs acc) = Ret f → u ∈ flow_value f →
  u ∈ acc ∨ ∃ v, is_data_uri (Some v) = true ∧ u = strip v.
Proof.
  revert acc. induction cs as [|n cs IH]; intros acc.
  { simpl. intros [= <-]. by left. }
  rewrite scan_cons. cbv zeta.
  assert (u ∈ acc ++ accepted_of (uri_of n.2) →
          u ∈ acc ∨ ∃ v, is_data_uri (Some v) = true ∧ u = strip v) as Hstep.
  { rewrite elem_of_app. intros [?|Hu]; [by left|right].
    unfold accepted_of in Hu. destruct (uri_of n.2) as [v|]; [|by apply elem_of_nil in Hu].
    destruct (is_data_uri (Some v)) eqn:E; [|by apply elem_of_nil in Hu].
    apply list_elem_of_singleton in Hu. by exists v. }
  destruct (cap_reached _ _).
  - intros [= <-]. apply Hstep.
  - simpl. intros Hf Hu. destruct (IH _ Hf Hu) as [?|?]; [auto|by right].
Qed.
End loops.

Section extraction.
Implicit Types (root : Element) (max : option Z).

Lemma scan_candidates_scan max cs acc :
  scan_candidates max cs acc = scan img_warning src_of max cs acc.
Proof.
  revert acc. induction cs as [|n cs IH]; intros acc; simpl; [done|].
  unfold src_of. destruct (consider _ _ _) as [tr [a| |]]; try done.
  unfold mbind, M_bind. simpl. destruct (cap_reached max a); [done|].
  by rewrite IH.
Qed.

Lemma scan_svg_images_scan max cs acc :
  scan_svg_images max cs acc =
    (trace (scan image_warning href_of max cs acc),
     match result (scan image_warning href_of max cs acc) with
     | Ret f => Ret (flow_value f)
     | Exit code msg => Exit code msg
     | Raise exc => Raise exc
     end).
Proof.
  revert acc. induction cs as [|n cs IH]; intros acc; simpl; [done|].
  destruct (consider _ _ _) as [tr [a| |]]; try done.
  unfold mbind, M_bind. simpl. destruct (cap_reached max a); [done|].
  by rewrite IH.
Qed.

(** [extract_uris_data] in terms of its two scans. *)
Lemma extract_uris_data_eq root max :
  extract_uris_data root max =
    let s12 := scan img_warning src_of max (tier12 root) [] in
    let s3 := scan image_warning href_of max
                (findall fallback_path ([], root)) [] in
    match result s12 with
    | Ret (Return data_uris) => (queries12 root ++ trace s12, Ret data_uris)
    | Ret (Next (u :: data_uris)) =>
        (queries12 root ++ trace s12, Ret (u :: data_uris))
    | Ret (Next []) =>
        (queries12 root ++ trace s12 ++ Query fallback_path :: trace s3,
         match result s3 with
         | Ret f =>
             match flow_value f with
             | [] => Exit 1 no_data_uris
             | data_uris => Ret data_uris
             end
         | Exit code msg => Exit code msg
         | Raise exc => Raise exc
         end)
    | Exit code msg => (queries12 root ++ trace s12, Exit code msg)
    | Raise exc => (queries12 root ++ trace s12, Raise exc)
    end.
Proof.
  unfold extract_uris_data, tier12, queries12, query.
  rewrite bind_ret.
  destruct (findall strict_path ([], root)) as [|c cs] eqn:Hs.
  - rewrite bind_ret.
    destruct (findall relaxed_path ([], root)) as [|c cs] eqn:Hr.
    + cbn -[findall fallback_path scan scan_svg_images].
      rewrite scan_svg_images_scan.
      destruct (scan image_warning href_of max _ []) as [tr [f| |]]; simpl; try done.
      destruct (flow_value f); simpl; by rewrite ?app_nil_r.
    + rewrite scan_candidates_scan.
      destruct (scan img_warning src_of max (c :: cs) []) as [tr [[[|u d]|d]| |]];
        cbn -[findall fallback_path scan scan_svg_images]; try done.
      * rewrite scan_svg_images_scan.
        destruct (scan image_warning href_of max _ []) as [tr' [f| |]]; simpl;
          rewrite ?app_nil_r, <-?app_assoc; try done.
        destruct (flow_value f); simpl; by rewrite ?app_nil_r.
      * by rewrite !app_nil_r.
      * by rewrite !app_nil_r.
  - rewrite mret_bind, scan_candidates_scan.
    destruct (scan img_warning src_of max (c :: cs) []) as [tr [[[|u d]|d]| |]];
      cbn -[findall fallback_path scan scan_svg_images]; try done.
    + rewrite scan_svg_images_scan.
      destruct (scan image_warning href_of max _ []) as [tr' [f| |]]; simpl;
        rewrite ?app_nil_r, <-?app_assoc; try done.
      destruct (flow_value f); simpl; by rewrite ?app_nil_r.
    + by rewrite !app_nil_r.
    + by rewrite !app_nil_r.
Qed.
End extraction.

(** ** Extraction: the claims *)

Section extraction_claims.
Implicit Types (root : Element) (max : option Z) (n : node).

Lemma cap_reached_positive k acc :
  0 < k → cap_reached (Some k) acc = bool_decide (k ≤ Z.of_nat (length acc)).
Proof.
  intros Hk. unfold cap_reached.
  destruct (k =? 0) eqn:E; [lia|]. simpl.
  by destruct (Z.leb_spec k (Z.of_nat (length acc)));
    [rewrite bool_decide_eq_true_2|rewrite bool_decide_eq_false_2 by lia].
Qed.

Lemma extract_length root k uris :
  0 < k → result (extract_uris_data root (Some k)) = Ret uris →
  Z.of_nat (length uris) ≤ k.
Proof.
  intros Hk. rewrite extract_uris_data_eq. cbv zeta.
  destruct (scan_total img_warning src_of (Some k) (tier12 root) []) as [f12 H12].
  destruct (scan_total image_warning href_of (Some k)
              (findall fallback_path ([], root)) []) as [f3 H3].
  pose proof (scan_length _ _ k _ [] _ Hk Hk H12) as L12.
  pose proof (scan_length _ _ k _ [] _ Hk Hk H3) as L3.
  rewrite H12. destruct f12 as [[|u d]|d]; simpl in *.
  - rewrite H3. destruct (flow_value f3) as [|u d]; [done|].
    by intros [= <-].
  - by intros [= <-].
  - by intros [= <-].
Qed.

Lemma accepted_snoc (uri_of : Element → option str) (pre : list node) n :
  accepted uri_of (pre ++ [n]) = accepted uri_of pre ++ accepted_of (uri_of n.2).
Proof. unfold accepted. by rewrite bind_app, bind_cons, app_nil_r. Qed.

Lemma warnings_snoc label (uri_of : Element → option str) (pre : list node) n :
  warnings label uri_of (pre ++ [n])
  = warnings label uri_of pre ++ warning_of label (uri_of n.2).
Proof. unfold warnings. by rewrite bind_app, bind_cons, app_nil_r. Qed.

Lemma accepted_of_valid uri :
  is_data_uri uri = true → ∃ u, uri = Some u ∧ accepted_of uri = [strip u].
Proof.
  unfold accepted_of. destruct uri as [u|]; [|done].
  intros ->. by exists u.
Qed.

Lemma warning_of_valid label uri :
  is_data_uri uri = true → warning_of label uri = [].
Proof. unfold warning_of. destruct uri as [u|]; [|done]. by intros ->. Qed.

(** The scan when its [k]-th URI comes from [n]. *)
Lemma scan_kth label (uri_of : Element → option str) k pre n post :
  0 < k →
  Z.of_nat (length (accepted uri_of pre)) = k - 1 →
  is_data_uri (uri_of n.2) = true →
  scan label uri_of (Some k) (pre ++ n :: post) [] =
    (warnings label uri_of pre, Ret (Return (accepted uri_of (pre ++ [n])))).
Proof.
  intros Hk Hpre Hn.
  destruct (accepted_of_valid _ Hn) as (u & Hu & Hacc).
  rewrite scan_stop.
  - by rewrite warnings_snoc, warning_of_valid, app_nil_r.
  - rewrite cap_reached_positive by done. apply bool_decide_eq_false_2.
    rewrite app_nil_l. lia.
  - rewrite cap_reached_positive by done. apply bool_decide_eq_true_2.
    rewrite app_nil_l, accepted_snoc, length_app, Hacc. simpl. lia.
Qed.

(** C3. For a positive cap [k], [extract_uris_data] returns at most [k]
    URIs, and it stops at the candidate that yields the [k]-th one: when
    that candidate is [n], found after the candidates [pre] and before
    the candidates [post] of the tier being scanned, the run consists of
    the queries, the warnings of [pre] and the URIs of [pre] and [n],
    whatever [post] holds. This is so in tiers 1-2 and in the fallback
    tier. *)
Theorem cap_bounds_and_stops root k :
  0 < k →
  (∀ uris, result (extract_uris_data root (Some k)) = Ret uris →
           Z.of_nat (length uris) ≤ k)
  ∧ (∀ pre n post,
       tier12 root = pre ++ n :: post →
       Z.of_nat (length (accepted src_of pre)) = k - 1 →
       is_data_uri (src_of n.2) = true →
       extract_uris_data root (Some k) =
         (queries12 root ++ warnings img_warning src_of pre,
          Ret (accepted src_of (pre ++ [n]))))
  ∧ (∀ pre n post,
       accepted src_of (tier12 root) = [] →
       findall fallback_path ([], root) = pre ++ n :: post →
       Z.of_nat (length (accepted href_of pre)) = k - 1 →
       is_data_uri (href_of n.2) = true →
       extract_uris_data root (Some k) =
         (queries12 root ++ warnings img_warning src_of (tier12 root)
            ++ Query fallback_path :: warnings image_warning href_of pre,
          Ret (accepted href_of (pre ++ [n])))).
Proof.
  intros Hk. split_and!.
  - intros uris. by apply extract_length.
  - intros pre n post Hc Hpre Hn.
    rewrite extract_uris_data_eq, Hc. cbv zeta.
    by rewrite (scan_kth _ _ k pre n post Hk Hpre Hn).
  - intros pre n post Hnone Hc Hpre Hn.
    rewrite extract_uris_data_eq, Hc. cbv zeta.
    rewrite (scan_kth _ _ k pre n post Hk Hpre Hn).
    rewrite scan_through; rewrite Hnone.
    + unfold result, trace. simpl. rewrite accepted_snoc.
      destruct (accepted_of_valid _ Hn) as (u & _ & ->).
      by destruct (accepted href_of pre).
    + rewrite cap_reached_positive by done. apply bool_decide_eq_false_2.
      simpl. lia.
Qed.

Lemma cap_bounds_and_stops_witness :
  0 < 1
  ∧ Z.of_nat (length [py Sample.uri_a]) ≤ 1
  ∧ extract_uris_data Sample.good_then_link (Some 1)
    = ([Query strict_path], Ret [strip (py Sample.uri_a)])
  ∧ extract_uris_data Sample.images_only (Some 1)
    = ([Query strict_path; Query relaxed_path; Query fallback_path],
       Ret [strip (py Sample.uri_a)]).
Proof.
  split; [lia|].
  destruct (cap_bounds_and_stops Sample.good_then_link 1) as (Hlen & Hstop & _);
    [lia|].
  destruct (cap_bounds_and_stops Sample.images_only 1) as (_ & _ & Hfall);
    [lia|].
  split_and!.
  - apply Hlen. by vm_compute.
  - etrans;
      [apply (Hstop [] ([0; 0; 0]%nat, Sample.image Sample.uri_a)
                [([0; 0; 1]%nat, Sample.image Sample.link)])|];
      by vm_compute.
  - etrans;
      [apply (Hfall []
                ([0]%nat, element Tag.IMAGE {[py "href" := py Sample.uri_a]} [])
                [([1]%nat, element Tag.IMAGE {[py "href" := py Sample.link]} [])])|];
      by vm_compute.
Defined.

Lemma relaxed_not_strict : relaxed_path ≠ strict_path.
Proof. by vm_compute. Qed.
Lemma fallback_not_strict : fallback_path ≠ strict_path.
Proof. by vm_compute. Qed.
Lemma fallback_not_relaxed : fallback_path ≠ relaxed_path.
Proof. by vm_compute. Qed.

Lemma elem_of_queries12 root path :
  Query path ∈ queries12 root →
  path = strict_path
  ∨ path = relaxed_path ∧ findall strict_path ([], root) = [].
Proof.
  unfold queries12. intros [[= ->]|H]%elem_of_cons; [by left|right].
  destruct (findall strict_path ([], root)); [|by apply elem_of_nil in H].
  by apply list_elem_of_singleton in H as [= ->].
Qed.

Lemma query_not_in_scan label uri_of max cs acc path :
  Query path ∉ trace (scan label uri_of max cs acc).
Proof. by intros [msg ?]%scan_trace. Qed.

(** Where a query of the trace of a run comes from. *)
Lemma elem_of_extract_trace root max path :
  Query path ∈ trace (extract_uris_data root max) →
  Query path ∈ queries12 root
  ∨ path = fallback_path ∧ accepted src_of (tier12 root) = [].
Proof.
  rewrite extract_uris_data_eq. cbv zeta.
  destruct (scan img_warning src_of max (tier12 root) [])
    as [tr12 [[[|u d]|d]| |]] eqn:E12; unfold trace, result; cbn [fst snd];
    rewrite ?elem_of_app, ?elem_of_cons;
    pose proof (query_not_in_scan img_warning src_of max (tier12 root) [] path)
      as H12; rewrite E12 in H12; unfold trace in H12; simpl in H12.
  - pose proof (query_not_in_scan image_warning href_of max
                  (findall fallback_path ([], root)) [] path) as H3.
    intros [?|[?|[[= ->]|?]]]; [by left|done| |done].
    right. split; [done|].
    by rewrite (scan_next _ _ _ _ _ _ (f_equal snd E12)).
  - intros [?|?]; [by left|done].
  - intros [?|?]; [by left|done].
  - intros [?|?]; [by left|done].
  - intros [?|?]; [by left|done].
Qed.

(** C4. The relaxed tier is queried only when the strict tier finds no
    element, the fallback tier only when the candidates of tiers 1-2
    yield no accepted URI; so when the strict tier finds an element whose
    [src] is a data URI, neither of them is queried. *)
Theorem tiers_short_circuit root max :
  (Query relaxed_path ∈ trace (extract_uris_data root max) →
   findall strict_path ([], root) = [])
  ∧ (Query fallback_path ∈ trace (extract_uris_data root max) →
     accepted src_of (tier12 root) = [])
  ∧ ((∃ n, n ∈ findall strict_path ([], root)
           ∧ is_data_uri (src_of n.2) = true) →
     (Query relaxed_path ∉ trace (extract_uris_data root max))
     ∧ (Query fallback_path ∉ trace (extract_uris_data root max))).
Proof.
  assert (Query relaxed_path ∈ trace (extract_uris_data root max) →
          findall strict_path ([], root) = []) as Hrelaxed.
  { intros [H|[H _]]%elem_of_extract_trace.
    - apply elem_of_queries12 in H as [H|[_ H]]; [|done].
      by destruct relaxed_not_strict.
    - by destruct fallback_not_relaxed. }
  assert (Query fallback_path ∈ trace (extract_uris_data root max) →
          accepted src_of (tier12 root) = []) as Hfallback.
  { intros [H|[_ H]]%elem_of_extract_trace; [|done].
    apply elem_of_queries12 in H as [H|[H _]].
    - by destruct fallback_not_strict.
    - by destruct fallback_not_relaxed. }
  split_and!; [done..|].
  intros (n & Hn & Hvalid).
  assert (findall strict_path ([], root) ≠ []) as Hne
    by (intros H; rewrite H in Hn; by apply elem_of_nil in Hn).
  split; [by intros ?%Hrelaxed|].
  intros Hnone%Hfallback. unfold tier12 in Hnone.
  destruct (findall strict_path ([], root)) as [|c cs] eqn:Hs; [done|].
  assert (strip (default [] (src_of n.2)) ∈ accepted src_of (c :: cs)) as Hin.
  { unfold accepted. apply list_elem_of_bind. exists n. split; [|done].
    destruct (accepted_of_valid _ Hvalid) as (u & -> & ->). simpl.
    apply list_elem_of_singleton. done. }
  rewrite Hnone in Hin. by apply elem_of_nil in Hin.
Qed.

Lemma tiers_short_circuit_witness :
  (Query relaxed_path ∉ trace (extract_uris_data Sample.good_then_link None))
  ∧ (Query fallback_path ∉ trace (extract_uris_data Sample.good_then_link None)).
Proof.
  apply (tiers_short_circuit Sample.good_then_link None).
  exists ([0; 0; 0]%nat, Sample.image Sample.uri_a).
  split; [|by vm_compute].
  replace (findall strict_path ([], Sample.good_then_link))
    with [([0; 0; 0]%nat, Sample.image Sample.uri_a);
          ([0; 0; 1]%nat, Sample.image Sample.link)] by by vm_compute.
  left.
Defined.

(** Every URI a run returns is the stripped form of a value the pattern
    accepts. *)
Lemma extract_values root max uris u :
  result (extract_uris_data root max) = Ret uris → u ∈ uris →
  ∃ v, is_data_uri (Some v) = true ∧ u = strip v.
Proof.
  rewrite extract_uris_data_eq. cbv zeta.
  destruct (scan_total img_warning src_of max (tier12 root) []) as [f12 H12].
  destruct (scan_total image_warning href_of max
              (findall fallback_path ([], root)) []) as [f3 H3].
  pose proof (scan_values _ _ max _ [] _ u H12) as V12.
  pose proof (scan_values _ _ max _ [] _ u H3) as V3.
  rewrite H12. destruct f12 as [[|u' d]|d]; simpl.
  - rewrite H3. destruct (flow_value f3) as [|u' d] eqn:E; [done|].
    intros [= <-] Hu. destruct (V3 Hu) as [?%elem_of_nil|?]; done.
  - intros [= <-] Hu. destruct (V12 Hu) as [?%elem_of_nil|?]; done.
  - intros [= <-] Hu. destruct (V12 Hu) as [?%elem_of_nil|?]; done.
Qed.

Lemma scan_rejected label (uri_of : Element → option str) max n rest acc v :
  uri_of n.2 = Some v →
  truthy (Some v) = true → is_data_uri (Some v) = false →
  cap_reached max acc = false →
  scan label uri_of max (n :: rest) acc =
    ([Warn (label ++ slice_to 60 v ++ ellipsis)]
       ++ trace (scan label uri_of max rest acc),
     result (scan label uri_of max rest acc)).
Proof.
  intros Hv Ht Hr Hcap. rewrite scan_cons. cbv zeta.
  unfold accepted_of, warning_of. rewrite Hv, Hr, Ht, app_nil_r.
  by rewrite Hcap.
Qed.

(** C6, for the candidates the scan reaches. A candidate that the scan
    reaches while the cap is not reached, and whose [src] (tiers 1-2) or
    link reference (fallback) is a non-empty value [v] that the data-URI
    pattern rejects, adds nothing to the URIs held so far and prints
    exactly one warning, which holds the first 60 characters of [v]; the
    scan then goes on with the next candidate. No run ever returns such a
    value. *)
Theorem rejected_candidate_warns_once max n (rest : list node)
  (acc : list str) (v : str) :
  truthy (Some v) = true → is_data_uri (Some v) = false →
  cap_reached max acc = false →
  (src_of n.2 = Some v →
   scan_candidates max (n :: rest) acc =
     ([Warn (img_warning ++ slice_to 60 v ++ ellipsis)]
        ++ trace (scan_candidates max rest acc),
      result (scan_candidates max rest acc)))
  ∧ (href_of n.2 = Some v →
     scan_svg_images max (n :: rest) acc =
       ([Warn (image_warning ++ slice_to 60 v ++ ellipsis)]
          ++ trace (scan_svg_images max rest acc),
        result (scan_svg_images max rest acc)))
  ∧ (∀ root uris, result (extract_uris_data root max) = Ret uris → v ∉ uris).
Proof.
  intros Ht Hr Hcap. split_and!.
  - intros Hv. rewrite !scan_candidates_scan. by apply scan_rejected.
  - intros Hv. rewrite !scan_svg_images_scan.
    by rewrite (scan_rejected _ _ _ _ _ _ v).
  - intros root uris Hres Hin.
    destruct (extract_values _ _ _ _ Hres Hin) as (u & Hu & ->).
    by apply (rejected_not_strip_of_accepted u (strip u)).
Qed.

Lemma rejected_candidate_warns_once_witness :
  scan_candidates None
    [([0; 0; 1]%nat, Sample.image Sample.link);
     ([0; 0; 0]%nat, Sample.image Sample.uri_a)] []
  = ([Warn (img_warning ++ slice_to 60 (py Sample.link) ++ ellipsis)],
     Ret (Next [strip (py Sample.uri_a)]))
  ∧ py Sample.link ∉ [strip (py Sample.uri_a)].
Proof.
  destruct (rejected_candidate_warns_once None
              ([0; 0; 1]%nat, Sample.image Sample.link)
              [([0; 0; 0]%nat, Sample.image Sample.uri_a)] []
              (py Sample.link)) as (Hsrc & _ & Hout);
    [by vm_compute..|].
  split.
  - etrans; [apply Hsrc|]; by vm_compute.
  - apply (Hout Sample.good_then_link). by vm_compute.
Defined.

(** C6 as stated fails once the cap is reached: with a cap of 1 the
    second strict candidate, whose [src] is a link, gets no warning. *)
Lemma rejected_after_cap_unwarned :
  (∃ n, n ∈ findall strict_path ([], Sample.good_then_link)
        ∧ truthy (src_of n.2) = true ∧ is_data_uri (src_of n.2) = false)
  ∧ ∀ msg, Warn msg ∉ trace (extract_uris_data Sample.good_then_link (Some 1)).
Proof.
  split.
  - exists ([0; 0; 1]%nat, Sample.image Sample.link).
    split; [|by vm_compute].
    replace (findall strict_path ([], Sample.good_then_link))
      with [([0; 0; 0]%nat, Sample.image Sample.uri_a);
            ([0; 0; 1]%nat, Sample.image Sample.link)] by by vm_compute.
    right. left.
  - intros msg.
    replace (trace (extract_uris_data Sample.good_then_link (Some 1)))
      with [Query strict_path] by by vm_compute.
    by intros [=]%list_elem_of_singleton.
Qed.

(** C5: in [Sample.nested_anilist] the image with [uri_b] comes first in
    the document, yet its URI comes second in the result. *)
Theorem nested_anilist_out_of_order :
  result (extract_uris_data Sample.nested_anilist None)
  = Ret [py Sample.uri_a; py Sample.uri_b]
  ∧ get_at Sample.nested_anilist [0; 1; 0]%nat = Some (Sample.image Sample.uri_a)
  ∧ get_at Sample.nested_anilist [0; 0; 0; 0]%nat
    = Some (Sample.image Sample.uri_b)
  ∧ doc_before [0; 0; 0; 0]%nat [0; 1; 0]%nat = true.
Proof. split_and!; by vm_compute. Qed.
End extraction_claims.

(** ** The strict tier and class matching: the claims *)

Section strict_claims.
Implicit Types (root x : Element) (q : ref) (n : node).

(** C2, with direct children. Among the XHTML [img] elements that carry a
    [src], the strict tier collects exactly those that are a child of an
    XHTML [div] whose class is [characters] and that is itself a child of
    an XHTML [div] whose class is [anilist] and that lies beneath the
    document element; it collects no element twice; and it lists them in
    document order when no such [anilist] element lies inside another
    one. *)
Theorem strict_tier_collects root :
  (∀ q x, is_Some (src_of x) →
     (q, x) ∈ findall strict_path ([], root) ↔ strict_candidate root q x)
  ∧ NoDup (findall strict_path ([], root)).*1
  ∧ (anilist_not_nested root →
     StronglySorted node_before (findall strict_path ([], root))).
Proof.
  split_and!.
  - intros q x _. apply elem_of_strict.
  - apply strict_NoDup.
  - intros Hnest.
    apply (StronglySorted_weaken node_left_of); [by apply strict_sorted|].
    intros n m _ _. apply node_left_of_before.
Qed.

Lemma good_then_link_not_nested : anilist_not_nested Sample.good_then_link.
Proof.
  assert (∀ a ea, a ≠ [] → get_at Sample.good_then_link a = Some ea →
                  div_of_class "anilist" ea → a = [0%nat]) as Hone.
  { intros a ea Ha Hea [_ Hc].
    destruct a as [|[|i] [|[|j] [|[|[|k]] [|l a]]]]; try done;
      vm_compute in Hea; try done; injection Hea as <-; by vm_compute in Hc. }
  intros a b ea eb Ha Hea Hda Heb Hdb (r & Hr & ->).
  assert (a ++ r ≠ []) as Hb by by destruct a.
  rewrite (Hone _ _ Ha Hea Hda) in *.
  apply (Hone _ _ Hb Heb) in Hdb. by destruct r.
Qed.

Lemma strict_tier_collects_witness :
  ([0; 0; 0]%nat, Sample.image Sample.uri_a)
    ∈ findall strict_path ([], Sample.good_then_link)
  ∧ StronglySorted node_before (findall strict_path ([], Sample.good_then_link)).
Proof.
  destruct (strict_tier_collects Sample.good_then_link) as (Hmem & _ & Hsort).
  split.
  - apply Hmem; [eexists; by vm_compute|].
    exists [0%nat], 0%nat, 0%nat,
      (Sample.div "anilist"
         [Sample.div "characters"
            [Sample.image Sample.uri_a; Sample.image Sample.link]]),
      (Sample.div "characters"
         [Sample.image Sample.uri_a; Sample.image Sample.link]).
    split_and!; by vm_compute.
  - apply Hsort, good_then_link_not_nested.
Defined.

(** C2 as stated fails: in [Sample.deep_characters] the [characters]
    element lies two levels inside the [anilist] element, and the strict
    tier finds nothing. *)
Lemma deep_characters_not_collected :
  stated_strict_candidate Sample.deep_characters [0; 0; 0; 0]%nat
    (Sample.image Sample.uri_a)
  ∧ findall strict_path ([], Sample.deep_characters) = [].
Proof.
  split; [|by vm_compute].
  split_and!; [by vm_compute..|eexists; by vm_compute|].
  exists [0; 0; 0]%nat, 0%nat,
    (Sample.div "characters" [Sample.image Sample.uri_a]),
    [0%nat],
    (Sample.div "anilist"
       [Sample.section [Sample.div "characters" [Sample.image Sample.uri_a]]]).
  split_and!; try by vm_compute.
  by exists [0; 0]%nat.
Qed.

Lemma elem_of_find (path : xpath) n m :
  find path n = Some m → m ∈ findall path n.
Proof. unfold find. apply head_Some_elem_of. Qed.

(** C10. Class matching is equality with the whole attribute value, on
    XHTML [div] elements: an element that is not an XHTML [div], or whose
    [class] is not exactly [anilist], is never among the elements that
    the path [.//xhtml:div[@class='anilist']] selects, from any element;
    every candidate of tiers 1 and 2 lies beneath an element that this
    path selects from the document element, and [has_anilist] holds of an
    element only when this path selects an element beneath it. *)
Theorem class_matching_is_exact (base : node) :
  (∀ q x, tag x ≠ Tag.DIV ∨ get x (py "class") ≠ Some (py "anilist") →
          (q, x) ∉ findall anilist_path base)
  ∧ (∀ q x, (q, x) ∈ findall strict_path base
            ∨ (q, x) ∈ findall relaxed_path base →
       ∃ a ea, (a, ea) ∈ findall anilist_path base ∧ beneath a q)
  ∧ (has_anilist base = true →
     ∃ a ea, (a, ea) ∈ findall anilist_path base ∧ beneath base.1 a).
Proof.
  destruct base as [p e]. split_and!.
  - intros q x Hx (r & _ & _ & _ & Ht & Hc)%elem_of_anilist. by destruct Hx.
  - intros q x [H|H].
    + rewrite findall_strict in H.
      apply elem_of_select_child in H as (pc & ec & j & [_ H]%list_elem_of_filter & -> & _).
      apply elem_of_select_child in H as (a & ea & i & Ha & -> & _).
      exists a, ea. split; [done|].
      exists [i; j]. split; [done|]. by rewrite <-app_assoc.
    + rewrite findall_relaxed in H.
      apply elem_of_select_descendant in H as (a & ea & r & Ha & Hr & -> & _);
        [|apply IMG_not_star].
      exists a, ea. split; [done|]. by exists r.
  - unfold has_anilist. intros [[a ea] Hf]%bool_decide_eq_true.
    apply elem_of_find in Hf. exists a, ea. split; [done|].
    apply elem_of_anilist in Hf as (r & Hr & -> & _). by exists r.
Qed.

Lemma class_matching_is_exact_witness :
  (([0]%nat, Sample.div "anilist card" []) ∉
     findall anilist_path ([], Sample.svg [Sample.div "anilist card" []]))
  ∧ ∃ a ea, (a, ea) ∈ findall anilist_path ([], Sample.good_then_link)
            ∧ beneath a [0; 0; 0]%nat.
Proof.
  destruct (class_matching_is_exact ([], Sample.svg [Sample.div "anilist card" []]))
    as (Hnot & _ & _).
  destruct (class_matching_is_exact ([], Sample.good_then_link))
    as (_ & Hbeneath & _).
  split.
  - apply Hnot. right. by vm_compute.
  - apply (Hbeneath _ (Sample.image Sample.uri_a)). left.
    replace (findall strict_path ([], Sample.good_then_link))
      with [([0; 0; 0]%nat, Sample.image Sample.uri_a);
            ([0; 0; 1]%nat, Sample.image Sample.link)] by by vm_compute.
    left.
Defined.
End strict_claims.

(** ** Selection *)

Section clearing.
Implicit Types (cs pre rest : list node) (c : node).

Lemma clear_loop_step i cs :
  clear_loop i cs =
    match cs !! i with
    | None => Some cs
    | Some child =>
        match remove child cs with
        | None => None
        | Some cs' => clear_loop (S i) cs'
        end
    end.
Proof.
  funelim (clear_loop i cs).
  - by rewrite Hend.
  - by rewrite Hc, Hr.
  - by rewrite Hc, Herr.
Qed.

Lemma remove_middle pre c rest :
  c.1 ∉ pre.*1 → remove c (pre ++ c :: rest) = Some (pre ++ rest).
Proof.
  induction pre as [|x pre IH]; simpl.
  - intros _. by rewrite decide_True.
  - intros [Hx Hpre]%not_elem_of_cons.
    rewrite decide_False by done. by rewrite IH.
Qed.

Lemma pair_ind {A : Type} (P : list A → Prop) :
  P [] → (∀ a, P [a]) → (∀ a b l, P l → P (a :: b :: l)) → ∀ l, P l.
Proof.
  intros H0 H1 H2. fix IH 1. intros [|a [|b l]]; [done..|].
  apply H2, IH.
Qed.

(** The loop removes the children it is handed at positions 0, 2, 4, ...
    and leaves the others. *)
Lemma clear_loop_app pre rest :
  NoDup (pre ++ rest).*1 →
  clear_loop (length pre) (pre ++ rest) = Some (pre ++ every_other rest).
Proof.
  revert pre. induction rest as [|c|c b rest IH] using pair_ind; intros pre Hnd.
  - rewrite clear_loop_step, app_nil_r, lookup_ge_None_2 by done.
    simpl. by rewrite app_nil_r.
  - rewrite clear_loop_step, list_lookup_middle by done.
    rewrite fmap_app, NoDup_app in Hnd. destruct Hnd as (_ & Hc & _).
    rewrite remove_middle.
    + rewrite clear_loop_step, app_nil_r, lookup_ge_None_2 by lia.
      simpl. by rewrite app_nil_r.
    + intros Hin. apply (Hc _ Hin). left.
  - rewrite clear_loop_step, list_lookup_middle by done.
    assert (c.1 ∉ pre.*1) as Hc.
    { rewrite fmap_app, NoDup_app in Hnd. destruct Hnd as (_ & Hc & _).
      intros Hin. apply (Hc _ Hin). left. }
    rewrite remove_middle by done.
    replace (S (length pre)) with (length (pre ++ [b]))
      by (rewrite length_app; simpl; lia).
    rewrite (cons_middle b pre rest), app_assoc, IH.
    + simpl. by rewrite <-app_assoc.
    + rewrite <-app_assoc. simpl.
      rewrite fmap_app, fmap_cons in Hnd.
      apply NoDup_app in Hnd as (H1 & H2 & [_ H3]%NoDup_cons).
      rewrite fmap_app. apply NoDup_app. split_and!; [done| |done].
      intros x Hx Hin. apply (H2 x Hx). by right.
Qed.

Lemma kids_NoDup n : NoDup (kids n).*1.
Proof.
  apply (StronglySorted_NoDup (λ a b, left_of a b)).
  - intros a Ha%left_of_doc_before. by rewrite doc_before_irrefl in Ha.
  - apply StronglySorted_fmap with (R1 := node_left_of); [done|].
    apply kids_sorted.
Qed.

Lemma kids_snd n : (kids n).*2 = children n.2.
Proof.
  unfold kids. apply list_eq. intros i.
  rewrite list_lookup_fmap, list_lookup_imap.
  by destruct (children n.2 !! i).
Qed.

Lemma every_other_fmap {A B} (f : A → B) (l : list A) :
  f <$> every_other l = every_other (f <$> l).
Proof.
  induction l as [|a|a b l IH] using pair_ind; [done..|].
  simpl. f_equal. apply IH.
Qed.

(** What [for child in target: target.remove(child)] leaves of the
    children of [target]. *)
Lemma clear_loop_kids n :
  clear_loop 0 (kids n) = Some (every_other (kids n)).
Proof. apply (clear_loop_app [] (kids n)), kids_NoDup. Qed.

Lemma every_other_sublist {A} (l : list A) : every_other l `sublist_of` l.
Proof.
  induction l as [|a|a b l IH] using pair_ind;
    [done|by apply sublist_nil_l|].
  simpl. by apply sublist_cons, sublist_skip.
Qed.

Lemma length_every_other {A} (l : list A) :
  length (every_other l) = (length l / 2)%nat.
Proof.
  induction l as [|a|a b l IH] using pair_ind; [done..|].
  simpl length. rewrite IH.
  change (S (S (length l))) with (1 * 2 + length l)%nat.
  by rewrite Nat.div_add_l.
Qed.
End clearing.

Section selection.
Implicit Types (root e : Element) (p q r : ref) (n m : node).

Lemma elem_of_foreign_objects root q e :
  (q, e) ∈ findall foreign_object_path ([], root) ↔
  q ≠ [] ∧ get_at root q = Some e ∧ tag e = FOREIGN_OBJECT.
Proof.
  destruct prefixed_tags as (_ & _ & _ & Hfo).
  unfold foreign_object_path. rewrite Hfo.
  rewrite elem_of_descendant by apply FOREIGN_OBJECT_not_star. simpl. split.
  - by intros (r & ? & -> & ? & ?).
  - intros (? & ? & ?). by exists q.
Qed.

Lemma elem_of_foreign_objects_1 root n :
  n ∈ findall foreign_object_path ([], root) →
  InsertionPoint root n.1 ∧ placed root n.
Proof.
  destruct n as [q e]. intros (? & ? & ?)%elem_of_foreign_objects.
  split; [|done]. split; [done|]. by exists e.
Qed.

Lemma has_anilist_marker root n :
  placed root n → has_anilist n = true ↔ has_marker root n.1.
Proof.
  destruct n as [p e]. unfold placed, has_anilist, has_marker, find. simpl.
  intros Hp. rewrite bool_decide_eq_true. split.
  - intros [[a ea] Hh]. apply head_Some_elem_of in Hh.
    apply elem_of_anilist in Hh as (r & Hr & -> & Hea & Hdiv).
    exists (p ++ r), ea. split_and!; [by exists r| |done].
    by rewrite get_at_app, Hp.
  - intros (m & em & (r & Hr & ->) & Hem & Hdiv).
    rewrite get_at_app, Hp in Hem. simpl in Hem.
    assert ((p ++ r, em) ∈ findall anilist_path (p, e)) as Hin
      by (apply elem_of_anilist; by exists r).
    destruct (findall anilist_path (p, e)); [by apply elem_of_nil in Hin|].
    by eexists.
Qed.

(** [find_object] in terms of the elements it enumerates. *)
Lemma find_object_eq root merge :
  find_object root merge =
    match findall foreign_object_path ([], root) with
    | [] => ([Query foreign_object_path], Exit 1 no_foreign_object)
    | first :: rest =>
        let marked := filter (λ obj, has_anilist obj = true) (first :: rest) in
        let others := filter (λ obj, has_anilist obj = false) (first :: rest) in
        let target := default first (head others) in
        ([Query foreign_object_path],
         Ret (if merge then ((default first (head marked)).1, root)
              else (target.1,
                    update_at target.1
                      (with_children (every_other (children target.2))) root)))
    end.
Proof.
  unfold find_object, query. rewrite bind_ret.
  destruct (findall foreign_object_path ([], root)) as [|first rest]; [done|].
  cbv zeta. destruct merge; [done|].
  by rewrite clear_loop_kids, every_other_fmap, kids_snd.
Qed.

(** What [find_object] returns and how it leaves the document. *)
Lemma find_object_spec root merge tr r root' :
  find_object root merge = (tr, Ret (r, root')) →
  ∃ fo, InsertionPoint root r ∧ get_at root r = Some fo ∧
        root' = if merge then root
                else update_at r (with_children (every_other (children fo))) root.
Proof.
  rewrite find_object_eq.
  destruct (findall foreign_object_path ([], root)) as [|first rest] eqn:E;
    [done|].
  cbv zeta.
  assert (∀ P `{!∀ n, Decision (P n)},
            default first (head (filter P (first :: rest)))
              ∈ findall foreign_object_path ([], root)) as Hin.
  { intros P ?. rewrite E.
    destruct (head (filter P (first :: rest))) as [x|] eqn:Hh; [|left].
    by apply head_Some_elem_of, list_elem_of_filter in Hh as [_ ?]. }
  destruct merge; intros [= _ <- <-].
  - destruct (elem_of_foreign_objects_1 _ _ (Hin (λ obj, has_anilist obj = true) _))
      as [HIP Hpl].
    by eexists.
  - destruct (elem_of_foreign_objects_1 _ _ (Hin (λ obj, has_anilist obj = false) _))
      as [HIP Hpl].
    by eexists.
Qed.

Lemma foreign_objects_sorted root :
  StronglySorted node_before (findall foreign_object_path ([], root)).
Proof.
  destruct prefixed_tags as (_ & _ & _ & Hfo).
  unfold foreign_object_path. rewrite Hfo.
  apply descendant_sorted, FOREIGN_OBJECT_not_star.
Qed.



(** C1: the second [foreignObject] of [Sample.two_objects], the one
    [find_object(root, merge=False)] selects, has two children before the
    call and still has its second child after it. *)
Theorem clearing_leaves_a_child :
  find_object Sample.two_objects false
  = ([Query foreign_object_path],
     Ret ([1]%nat,
          Sample.svg [Sample.foreign [Sample.div "anilist" []];
                      Sample.foreign [Sample.div "right" []]])).
Proof. by vm_compute. Qed.
End selection.

(** ** Injection *)

Section mutation.
Implicit Types (root e : Element) (p q r : ref) (f : Element → Element).

Lemma get_at_update_at r f root :
  get_at (update_at r f root) r = f <$> get_at root r.
Proof.
  revert root. induction r as [|i r IH]; intros root; simpl; [done|].
  rewrite list_lookup_alter_eq.
  destruct (children root !! i) as [c|]; simpl; [apply IH|done].
Qed.

(** A mutation at [r] is not seen from a position that is neither [r],
    nor beneath [r], nor above [r]. *)
Lemma get_at_update_at_apart r f root q :
  ¬ r `prefix_of` q → ¬ q `prefix_of` r →
  get_at (update_at r f root) q = get_at root q.
Proof.
  revert root q. induction r as [|i r IH]; intros root q Hrq Hqr.
  { destruct Hrq. apply prefix_nil. }
  destruct q as [|j q]; [destruct Hqr; apply prefix_nil|]. simpl.
  destruct (decide (i = j)) as [->|Hij].
  - rewrite list_lookup_alter_eq.
    destruct (children root !! j) as [c|]; simpl; [|done].
    apply IH; intros Hpre; [apply Hrq|apply Hqr]; by apply prefix_cons.
  - by rewrite list_lookup_alter_ne.
Qed.

(** An element above [r] keeps what it holds itself. *)
Lemma shallow_update_at r f root q :
  ¬ r `prefix_of` q →
  shallow <$> get_at (update_at r f root) q = shallow <$> get_at root q.
Proof.
  revert root q. induction r as [|i r IH]; intros root q Hrq.
  { destruct Hrq. apply prefix_nil. }
  destruct q as [|j q]; simpl.
  { unfold shallow. simpl. by rewrite length_alter. }
  destruct (decide (i = j)) as [->|Hij].
  - rewrite list_lookup_alter_eq.
    destruct (children root !! j) as [c|]; simpl; [|done].
    apply IH. intros Hpre. apply Hrq. by apply prefix_cons.
  - by rewrite list_lookup_alter_ne.
Qed.

Lemma bind_Ret_inv {A B} (m : M A) (k : A → M B) tr b :
  m ≫= k = (tr, Ret b) →
  ∃ tr1 a tr2, m = (tr1, Ret a) ∧ k a = (tr2, Ret b) ∧ tr = tr1 ++ tr2.
Proof.
  destruct m as [tr1 [a| |]]; unfold mbind, M_bind; simpl; [|done..].
  destruct (k a) as [tr2 o] eqn:E. simpl. intros [= <- ->].
  by exists tr1, a, tr2.
Qed.

Lemma parse_svg_Ret fs path tr root :
  parse_svg fs path = (tr, Ret root) → fs path = Some (Document root).
Proof.
  unfold parse_svg. destruct (fs path) as [[msg|exc|doc]|]; [done..| |done].
  by intros [= _ ->].
Qed.
End mutation.

(** What [find_object(root, merge=False)] leaves of the children of the
    element it returns: every second one, starting with the second. *)
Lemma clearing_keeps_every_other root tr r root' :
  find_object root false = (tr, Ret (r, root')) →
  ∃ fo fo', get_at root r = Some fo ∧ get_at root' r = Some fo'
            ∧ children fo' = every_other (children fo)
            ∧ length (children fo') = (length (children fo) / 2)%nat.
Proof.
  intros (fo & _ & Hfo & ->)%find_object_spec.
  exists fo, (with_children (every_other (children fo)) fo).
  split_and!; [done| |done|apply length_every_other].
  by rewrite get_at_update_at, Hfo.
Qed.

Section injection.
Implicit Types (root e : Element) (p q r : ref).



Lemma tags_apart :
  Tag.DIV ≠ Tag.IMG ∧ Tag.SECTION ≠ Tag.IMG.
Proof. split; by vm_compute. Qed.

Lemma iter_img p uri width height :
  iter (Some Tag.IMG) p (img uri width height) = [(p, img uri width height)].
Proof.
  rewrite iter_unfold, wildcard_tag by apply IMG_not_star.
  unfold tag_selected. by simpl.
Qed.

Lemma iter_children_imgs p i (images : list str) width height :
  (iter_children (Some Tag.IMG) p i ((λ uri, img uri width height) <$> images)).*2
  = (λ uri, img uri width height) <$> images.
Proof.
  revert i. induction images as [|uri images IH]; intros i; [done|].
  rewrite fmap_cons.
  change (iter_children ?tg p i (?c :: ?cs))
    with (iter tg (p ++ [i]) c ++ iter_children tg p (S i) cs).
  rewrite iter_img, fmap_app, IH. done.
Qed.

Lemma iter_wrapper tg a (cs : list Element) p :
  tg ≠ Tag.IMG →
  iter (Some Tag.IMG) p (element tg a cs)
  = iter_children (Some Tag.IMG) p 0 cs.
Proof.
  intros Htg. rewrite iter_unfold, wildcard_tag by apply IMG_not_star.
  unfold tag_selected. simpl. by rewrite bool_decide_eq_false_2.
Qed.

Lemma iter_children_singleton otg p c :
  iter_children otg p 0 [c] = iter otg (p ++ [0%nat]) c.
Proof. apply app_nil_r. Qed.

(** The [img] elements of the fragment are those made from the URIs, in
    order. *)
Lemma imgs_of_fragment images width height :
  imgs_of (build_anilist_section images width height)
  = (λ uri, img uri width height) <$> images.
Proof.
  destruct tags_apart as [Hdiv Hsection].
  unfold imgs_of, build_anilist_section. cbv zeta.
  rewrite !bind_cons.
  repeat (rewrite iter_wrapper by done; rewrite ?iter_children_singleton).
  rewrite iter_children_imgs. simpl. by rewrite app_nil_r.
Qed.

(** C9. The fragment [build_anilist_section] builds holds as many [img]
    elements as there are URIs, and the [i]-th of them carries the [i]-th
    URI as [src], the stringified width and height as [width] and
    [height], and [alt="character"]. *)
Theorem one_img_per_uri (images : list str) (width height : Z) :
  length (imgs_of (build_anilist_section images width height))
  = length images
  ∧ ∀ i uri, images !! i = Some uri →
      ∃ e, imgs_of (build_anilist_section images width height) !! i = Some e
           ∧ tag e = Tag.IMG
           ∧ get e (py "src") = Some uri
           ∧ get e (py "width") = Some (str_of_int width)
           ∧ get e (py "height") = Some (str_of_int height)
           ∧ get e (py "alt") = Some (py "character").
Proof.
  rewrite imgs_of_fragment. split; [by rewrite length_fmap|].
  intros i uri Hi. exists (img uri width height).
  rewrite list_lookup_fmap, Hi. split_and!; [done..| | | |];
    unfold get, img; simpl.
  - apply lookup_insert_eq.
  - rewrite lookup_insert_ne by by vm_compute. apply lookup_insert_eq.
  - rewrite !lookup_insert_ne by by vm_compute. apply lookup_insert_eq.
  - rewrite !lookup_insert_ne by by vm_compute. apply lookup_singleton_eq.
Qed.

Lemma one_img_per_uri_witness :
  ∃ e, imgs_of (build_anilist_section [py Sample.uri_a; py Sample.uri_b] 36 54)
         !! 1%nat = Some e
       ∧ get e (py "src") = Some (py Sample.uri_b)
       ∧ get e (py "width") = Some (py "36")
       ∧ get e (py "height") = Some (py "54").
Proof.
  destruct (one_img_per_uri [py Sample.uri_a; py Sample.uri_b] 36 54)
    as [_ Himg].
  destruct (Himg 1%nat (py Sample.uri_b) eq_refl)
    as (e & He & _ & Hsrc & Hw & Hh & _).
  by exists e.
Defined.
End injection.


(** * Further properties *)

(** ** The data-URI pattern *)

Section pattern.
Implicit Types (r : regex) (s u v : str) (c : N).

Lemma in_empty_inv s : ¬ in_lang EmptySet s.
Proof. inversion 1. Qed.

Lemma in_epsilon_inv s : in_lang Epsilon s → s = [].
Proof. by inversion 1. Qed.

Lemma in_char_inv f s : in_lang (CharSet f) s → ∃ c, s = [c] ∧ f c = true.
Proof. inversion 1; subst. by eexists. Qed.

Lemma in_cat_inv r1 r2 s :
  in_lang (Cat r1 r2) s → ∃ u v, s = u ++ v ∧ in_lang r1 u ∧ in_lang r2 v.
Proof. inversion 1; subst. by do 2 eexists. Qed.

Lemma in_alt_inv r1 r2 s : in_lang (Alt r1 r2) s → in_lang r1 s ∨ in_lang r2 s.
Proof. inversion 1; subst; [by left|by right]. Qed.

Lemma nullable_spec r : nullable r = true ↔ in_lang r [].
Proof.
  induction r as [| |f|r1 IH1 r2 IH2|r1 IH1 r2 IH2|r IH]; simpl.
  - split; [done|]. by intros ?%in_empty_inv.
  - split; [constructor|done].
  - split; [done|]. by intros (c & ? & _)%in_char_inv.
  - rewrite andb_true_iff, IH1, IH2. split.
    + intros [H1 H2]. by apply (in_cat _ _ [] []).
    + intros (u & v & Heq & Hu & Hv)%in_cat_inv.
      symmetry in Heq. by apply app_eq_nil in Heq as [-> ->].
  - rewrite orb_true_iff, IH1, IH2. split.
    + intros [?|?]; [by apply in_alt_l|by apply in_alt_r].
    + apply in_alt_inv.
  - split; [constructor|done].
Qed.

Lemma star_cons_inv r c s :
  in_lang (Star r) (c :: s) →
  ∃ u v, s = u ++ v ∧ in_lang r (c :: u) ∧ in_lang (Star r) v.
Proof.
  intros H. remember (Star r) as R eqn:HR. remember (c :: s) as w eqn:Hw.
  revert s Hw. induction H as [| | | | | |r' u v Hu _ Hv IH]; intros t Hw;
    try done.
  injection HR as ->. destruct u as [|c' u]; simpl in Hw.
  - by apply IH.
  - injection Hw as -> <-. by exists u, v.
Qed.

Lemma deriv_spec c r s : in_lang (deriv c r) s ↔ in_lang r (c :: s).
Proof.
  revert s.
  induction r as [| |f|r1 IH1 r2 IH2|r1 IH1 r2 IH2|r IH]; intros s; simpl.
  - split; by intros ?%in_empty_inv.
  - split; [by intros ?%in_empty_inv|by intros ?%in_epsilon_inv].
  - destruct (f c) eqn:Hf; split.
    + intros ->%in_epsilon_inv. by constructor.
    + intros (c' & [= -> ->] & _)%in_char_inv. constructor.
    + by intros ?%in_empty_inv.
    + intros (c' & [= -> ->] & ?)%in_char_inv. congruence.
  - assert (in_lang (Cat (deriv c r1) r2) s ↔
            ∃ u v, s = u ++ v ∧ in_lang r1 (c :: u) ∧ in_lang r2 v) as Hleft.
    { split.
      - intros (u & v & -> & Hu & Hv)%in_cat_inv. apply IH1 in Hu. by exists u, v.
      - intros (u & v & -> & Hu & Hv). constructor; [by apply IH1|done]. }
    assert (in_lang (Cat r1 r2) (c :: s) ↔
            (in_lang r1 [] ∧ in_lang r2 (c :: s))
            ∨ ∃ u v, s = u ++ v ∧ in_lang r1 (c :: u) ∧ in_lang r2 v) as Hcat.
    { split.
      - intros (u & v & Heq & Hu & Hv)%in_cat_inv.
        destruct u as [|c' u]; simpl in Heq; subst; [by left|].
        injection Heq as -> ->. right. by exists u, v.
      - intros [[Hu Hv]|(u & v & -> & Hu & Hv)].
        + by apply (in_cat _ _ [] (c :: s)).
        + by apply (in_cat _ _ (c :: u) v). }
    rewrite Hcat. destruct (nullable r1) eqn:Hn.
    + apply nullable_spec in Hn. split.
      * intros [H|H]%in_alt_inv; [right; by apply Hleft|left].
        split; [done|by apply IH2].
      * intros [[_ H]|H]; [apply in_alt_r; by apply IH2|].
        apply in_alt_l. by apply Hleft.
    + rewrite Hleft. split; [by right|].
      intros [[H _]|H]; [|done]. apply nullable_spec in H. congruence.
  - split.
    + intros [H|H]%in_alt_inv; [apply in_alt_l; by apply IH1|apply in_alt_r; by apply IH2].
    + intros [H|H]%in_alt_inv; [apply in_alt_l; by apply IH1|apply in_alt_r; by apply IH2].
  - split.
    + intros (u & v & -> & Hu & Hv)%in_cat_inv.
      apply IH in Hu. by apply (in_star_cons _ (c :: u) v).
    + intros (u & v & -> & Hu & Hv)%star_cons_inv.
      constructor; [by apply IH|done].
Qed.

(** [matches] decides membership in the language. *)
Lemma matches_spec r s : matches r s = true ↔ in_lang r s.
Proof.
  unfold matches. revert r. induction s as [|c s IH]; intros r; simpl.
  - apply nullable_spec.
  - by rewrite IH, deriv_spec.
Qed.
End pattern.

Section data_uri.
Implicit Types (r : regex) (s u v : str) (c : N).

Lemma in_cat_iff r1 r2 s :
  in_lang (Cat r1 r2) s ↔ ∃ u v, s = u ++ v ∧ in_lang r1 u ∧ in_lang r2 v.
Proof.
  split; [apply in_cat_inv|]. intros (u & v & -> & Hu & Hv). by constructor.
Qed.

Lemma in_lit l s : in_lang (Lit l) s ↔ s = l.
Proof.
  revert s. induction l as [|c l IH]; intros s; simpl.
  - split; [apply in_epsilon_inv|intros ->; constructor].
  - rewrite in_cat_iff. split.
    + intros (u & v & -> & (c' & -> & Hc)%in_char_inv & Hv%IH).
      apply N.eqb_eq in Hc. by subst.
    + intros ->. exists [c], l. split_and!; [done| |by apply IH].
      constructor. apply N.eqb_refl.
Qed.

Lemma in_star_set f s :
  in_lang (Star (CharSet f)) s ↔ Forall (λ c, f c = true) s.
Proof.
  split.
  - intros H. remember (Star (CharSet f)) as R eqn:HR.
    induction H as [| | | | | |r' u v Hu _ Hv IH]; try done.
    injection HR as ->. apply in_char_inv in Hu as (c & -> & Hc).
    constructor; [done|by apply IH].
  - induction 1 as [|c s Hc _ IH]; [constructor|].
    apply (in_star_cons _ [c] s); [by constructor|done].
Qed.

Lemma in_plus_set f s :
  in_lang (Plus (CharSet f)) s ↔ s ≠ [] ∧ Forall (λ c, f c = true) s.
Proof.
  unfold Plus. rewrite in_cat_iff. split.
  - intros (u & v & -> & (c & -> & Hc)%in_char_inv & Hv%in_star_set).
    split; [done|by constructor].
  - intros [Hne Hall]. destruct Hall as [|c s Hc Hs]; [done|].
    exists [c], s. split_and!; [done|by constructor|by apply in_star_set].
Qed.

Lemma in_dollar s : in_lang Dollar s ↔ s = [] ∨ s = [10%N].
Proof.
  unfold Dollar. split.
  - intros [->%in_epsilon_inv|(c & -> & Hc)%in_char_inv]%in_alt_inv; [by left|].
    apply N.eqb_eq in Hc. subst. by right.
  - intros [->| ->]; [apply in_alt_l; constructor|].
    apply in_alt_r. by constructor.
Qed.

(** The pattern accepts exactly the strings of the shape
    [data:image/<subtype>;base64,<payload>]. *)
Lemma matches_data_uri s :
  matches data_uri_pattern s = true ↔ data_uri_shape s.
Proof.
  rewrite matches_spec. unfold data_uri_pattern, data_uri_shape. split.
  - intros (p & ? & -> & ->%in_lit & H)%in_cat_inv.
    apply in_cat_inv in H as (sub & ? & -> & [Hsub Hns]%in_plus_set & H).
    apply in_cat_inv in H as (m & ? & -> & ->%in_lit & H).
    apply in_cat_inv in H as (pay & e & -> & [Hpay Hb]%in_plus_set & He).
    apply in_dollar in He as [->| ->].
    + exists sub, pay. by rewrite app_nil_r.
    + exists sub, (pay ++ [10%N]). split_and!; try done.
      * by destruct pay.
      * apply Forall_app. split; [done|]. by repeat constructor.
  - intros (sub & pay & -> & Hsub & Hns & Hpay & Hb).
    apply in_cat; [by apply in_lit|].
    apply in_cat; [by apply in_plus_set|].
    apply in_cat; [by apply in_lit|].
    assert (in_lang Dollar []) as Hend by (apply in_dollar; by left).
    assert (in_lang (Plus (CharSet base64_or_space)) pay) as Hplus
      by by apply in_plus_set.
    pose proof (in_cat _ _ _ _ Hplus Hend) as H. by rewrite app_nil_r in H.
Qed.

Lemma strip_nil : strip [] = [].
Proof. done. Qed.

Lemma data_uri_shape_nonempty s : data_uri_shape s → s ≠ [].
Proof. by intros (sub & pay & -> & _). Qed.

Lemma is_data_uri_iff (uri : option str) :
  is_data_uri uri = true ↔ ∃ u, uri = Some u ∧ data_uri_shape (strip u).
Proof.
  unfold is_data_uri. destruct uri as [u|]; [|split; [done|by intros (? & ? & _)]].
  split.
  - destruct (truthy (Some u)); [|done].
    intros H%matches_data_uri. by exists u.
  - intros (? & [= <-] & Hshape).
    assert (truthy (Some u) = true) as ->.
    { destruct u; [|done]. by apply data_uri_shape_nonempty in Hshape. }
    by apply matches_data_uri.
Qed.

(** X1. [is_data_uri] holds of a value exactly when it is present and,
    once its surrounding whitespace is stripped, has the shape
    [data:image/<subtype>;base64,<payload>], with a non-empty subtype free
    of [;] and a non-empty payload of base64 characters and whitespace. *)
Theorem is_data_uri_shape (uri : option str) :
  is_data_uri uri = true ↔ ∃ u, uri = Some u ∧ data_uri_shape (strip u).
Proof. apply is_data_uri_iff. Qed.

Lemma returned_uri_valid root max uris u :
  result (extract_uris_data root max) = Ret uris → u ∈ uris →
  data_uri_shape u ∧ strip u = u ∧ is_data_uri (Some u) = true.
Proof.
  intros Hres Hin.
  destruct (extract_values _ _ _ _ Hres Hin) as (v & Hv & ->).
  apply is_data_uri_iff in Hv as (? & [= <-] & Hshape).
  split_and!; [done|apply strip_idemp|].
  apply is_data_uri_iff. eexists. split; [done|]. by rewrite strip_idemp.
Qed.

(** X2. Every URI that [extract_uris_data] returns is a data URI of that
    shape and carries no surrounding whitespace; [is_data_uri] accepts it
    as it is. *)
Theorem returned_uris_are_trimmed_data_uris root max uris u :
  result (extract_uris_data root max) = Ret uris → u ∈ uris →
  data_uri_shape u ∧ strip u = u ∧ is_data_uri (Some u) = true.
Proof.
  apply returned_uri_valid.
Qed.

Lemma returned_uris_are_trimmed_data_uris_witness :
  data_uri_shape (py Sample.uri_a) ∧ strip (py Sample.uri_a) = py Sample.uri_a.
Proof.
  destruct (returned_uris_are_trimmed_data_uris Sample.good_then_link None
              [py Sample.uri_a] (py Sample.uri_a)) as (Hshape & Hstrip & _).
  - by vm_compute.
  - left.
  - done.
Defined.
End data_uri.

(** ** What a run of the extraction returns *)

Section extraction_results.
Context (label : str) (uri_of : Element → option str).
Implicit Types (max : option Z) (cs pre post : list node) (acc : list str).

Lemma cap_sane_start max : cap_sane max → cap_reached max [] = false.
Proof.
  unfold cap_sane, cap_reached. destruct max as [k|]; [|done].
  intros Hk. destruct (k =? 0) eqn:E; [done|]. simpl.
  apply Z.leb_gt. apply Z.eqb_neq in E. lia.
Qed.

Lemma capped_open max acc :
  cap_sane max → cap_reached max acc = false → capped max acc = acc.
Proof.
  unfold cap_sane, cap_reached, capped. destruct max as [k|]; [|done].
  intros Hk. destruct (Z.ltb_spec 0 k) as [Hpos|]; [|done].
  destruct (k =? 0) eqn:E; [lia|]. simpl. intros Hlt%Z.leb_gt.
  apply take_ge. lia.
Qed.

(** The URIs held when the cap is reached by one more URI are the first
    [k] of any longer list. *)
Lemma capped_reached max acc more rest :
  cap_sane max → cap_reached max acc = false → (length more ≤ 1)%nat →
  cap_reached max (acc ++ more) = true →
  capped max ((acc ++ more) ++ rest) = acc ++ more.
Proof.
  unfold cap_sane, cap_reached, capped. destruct max as [k|]; [|done].
  intros Hk. destruct (k =? 0) eqn:E; [done|]. simpl.
  apply Z.eqb_neq in E. destruct (Z.ltb_spec 0 k) as [Hpos|]; [|lia].
  rewrite length_app. intros Hlt%Z.leb_gt Hone Hge%Z.leb_le.
  apply take_app_length'. rewrite length_app. lia.
Qed.

(** With a sane cap a scan holds, when it ends, the first [k] of the URIs
    of its candidates. *)
Lemma scan_capped max cs acc f :
  cap_sane max → cap_reached max acc = false →
  result (scan label uri_of max cs acc) = Ret f →
  flow_value f = capped max (acc ++ accepted uri_of cs).
Proof.
  intros Hsane. revert acc. induction cs as [|n cs IH]; intros acc Hopen.
  - simpl. intros [= <-]. unfold accepted. simpl.
    by rewrite app_nil_r, capped_open.
  - rewrite scan_cons. cbv zeta. unfold accepted. rewrite bind_cons, app_assoc.
    destruct (cap_reached max (acc ++ accepted_of (uri_of n.2))) eqn:Hcap.
    + intros [= <-]. simpl.
      rewrite capped_reached; auto using length_accepted_of.
    + simpl. by apply IH.
Qed.

Lemma scan_return_capped max cs acc d :
  result (scan label uri_of max cs acc) = Ret (Return d) →
  cap_reached max d = true.
Proof.
  revert acc. induction cs as [|n cs IH]; intros acc; [done|].
  rewrite scan_cons. cbv zeta.
  destruct (cap_reached max (acc ++ accepted_of (uri_of n.2))) eqn:Hcap.
  - by intros [= <-].
  - simpl. apply IH.
Qed.

(** What a scan prints and holds comes from the candidates it reached: a
    prefix of its list. *)
Lemma scan_prefix max cs acc f :
  result (scan label uri_of max cs acc) = Ret f →
  ∃ pre post, cs = pre ++ post
              ∧ flow_value f = acc ++ accepted uri_of pre
              ∧ trace (scan label uri_of max cs acc) = warnings label uri_of pre.
Proof.
  revert acc. induction cs as [|n cs IH]; intros acc.
  - simpl. intros [= <-]. exists [], [].
    split_and!; [done| |done]. unfold accepted. simpl. by rewrite app_nil_r.
  - rewrite scan_cons. cbv zeta.
    destruct (cap_reached max (acc ++ accepted_of (uri_of n.2))) eqn:Hcap.
    + intros [= <-]. exists [n], cs. unfold accepted, warnings.
      rewrite !bind_cons. simpl. by rewrite !app_nil_r.
    + simpl. intros (pre & post & -> & Hval & Htr)%IH.
      exists (n :: pre), post. unfold accepted, warnings in *.
      rewrite !bind_cons, app_assoc. unfold trace in *. simpl.
      by rewrite Htr.
Qed.

Lemma capped_nil max (l : list str) : cap_sane max → capped max l = [] → l = [].
Proof.
  unfold cap_sane, capped. destruct max as [k|]; [|done].
  intros Hk. destruct (Z.ltb_spec 0 k) as [Hpos|]; [|done].
  destruct l; [done|]. destruct (Z.to_nat k) eqn:E; [lia|done].
Qed.

Lemma scan_zero cs acc :
  scan label uri_of (Some 0) cs acc = scan label uri_of None cs acc.
Proof.
  revert acc. induction cs as [|n cs IH]; intros acc; [done|].
  rewrite !scan_cons. cbv zeta. simpl. by rewrite IH.
Qed.
End extraction_results.

Section extraction_more.
Implicit Types (root : Element) (max : option Z).

Lemma extract_result_sane root max :
  cap_sane max →
  result (extract_uris_data root max) =
    match capped max (accepted src_of (tier12 root)) with
    | (_ :: _) as uris => Ret uris
    | [] =>
        match capped max (accepted href_of
                            (findall fallback_path ([], root))) with
        | (_ :: _) as uris => Ret uris
        | [] => Exit 1 no_data_uris
        end
    end.
Proof.
  intros Hsane. rewrite extract_uris_data_eq. cbv zeta.
  destruct (scan_total img_warning src_of max (tier12 root) []) as [f12 H12].
  destruct (scan_total image_warning href_of max
              (findall fallback_path ([], root)) []) as [f3 H3].
  pose proof (scan_capped _ _ _ _ _ _ Hsane (cap_sane_start _ Hsane) H12) as V12.
  pose proof (scan_capped _ _ _ _ _ _ Hsane (cap_sane_start _ Hsane) H3) as V3.
  simpl in V12, V3. rewrite <-V12, <-V3, H12.
  destruct f12 as [[|u d]|d]; simpl.
  - rewrite H3. by destruct (flow_value f3).
  - done.
  - destruct d as [|u d]; [|done].
    apply scan_return_capped in H12. by rewrite cap_sane_start in H12.
Qed.

(** X3. With no cap or with a cap that is not negative, a run returns the
    first [max_images] URIs (all of them without a cap or with a cap of
    0) that the candidates of tiers 1-2 yield, in the order of the
    candidates; when these yield none, the same of the fallback tier; and
    when that yields none either, the run exits with status 1 and the
    message about missing data URIs. *)
Theorem extraction_result root max :
  cap_sane max →
  result (extract_uris_data root max) =
    match capped max (accepted src_of (tier12 root)) with
    | (_ :: _) as uris => Ret uris
    | [] =>
        match capped max (accepted href_of
                            (findall fallback_path ([], root))) with
        | (_ :: _) as uris => Ret uris
        | [] => Exit 1 no_data_uris
        end
    end.
Proof. apply extract_result_sane. Qed.

Lemma extraction_result_witness :
  result (extract_uris_data Sample.good_then_link (Some 1))
  = Ret [strip (py Sample.uri_a)].
Proof.
  rewrite (extraction_result Sample.good_then_link (Some 1)); [|done].
  by vm_compute.
Defined.

(** X4. Without a cap, a run prints exactly one warning for each
    candidate of tiers 1-2 whose [src] is present and rejected, in the
    order of the candidates, and, when tiers 1-2 yield no URI (also when
    they found candidates), goes on to the fallback tier and does the same
    for each [svg:image]. *)
Theorem uncapped_trace root :
  trace (extract_uris_data root None) =
    queries12 root ++ warnings img_warning src_of (tier12 root)
    ++ match accepted src_of (tier12 root) with
       | [] => Query fallback_path
               :: warnings image_warning href_of
                    (findall fallback_path ([], root))
       | _ => []
       end.
Proof.
  rewrite extract_uris_data_eq. cbv zeta.
  rewrite !scan_through by done. unfold trace, result. simpl.
  destruct (accepted src_of (tier12 root)); simpl; [done|].
  by rewrite app_nil_r.
Qed.

(** X5. A negative cap makes tiers 1-2 return after their first
    candidate, whatever it is: the run returns the URI of that candidate
    if it is a data URI and the empty list if it is not, without looking
    at the other candidates or at the fallback tier and without the
    error about missing data URIs. *)
Theorem negative_cap_returns_at_once root k (n : node) (rest : list node) :
  k < 0 → tier12 root = n :: rest →
  extract_uris_data root (Some k) =
    (queries12 root ++ warning_of img_warning (src_of n.2),
     Ret (accepted_of (src_of n.2))).
Proof.
  intros Hk Ht. rewrite extract_uris_data_eq, Ht. cbv zeta.
  rewrite scan_cons. cbv zeta.
  assert (∀ l, cap_reached (Some k) l = true) as Hcap.
  { intros l. unfold cap_reached. destruct (k =? 0) eqn:E; [lia|]. simpl.
    apply Z.leb_le. lia. }
  by rewrite Hcap.
Qed.

Lemma negative_cap_returns_at_once_witness :
  extract_uris_data
    (Sample.svg [Sample.div "anilist"
                   [Sample.div "characters"
                      [Sample.image Sample.link; Sample.image Sample.uri_a]]])
    (Some (-1))
  = ([Query strict_path;
      Warn (img_warning ++ slice_to 60 (py Sample.link) ++ ellipsis)],
     Ret []).
Proof.
  etrans;
    [apply (negative_cap_returns_at_once _ (-1)
              ([0; 0; 0]%nat, Sample.image Sample.link)
              [([0; 0; 1]%nat, Sample.image Sample.uri_a)])|];
    by vm_compute.
Defined.

(** X6. A cap of 0 is no cap: the run is the same as without one. *)
Theorem zero_cap_is_no_cap root :
  extract_uris_data root (Some 0) = extract_uris_data root None.
Proof. rewrite !extract_uris_data_eq. cbv zeta. by rewrite !scan_zero. Qed.

(** X7. The relaxed tier is queried exactly when the strict tier finds no
    element, and, for a cap that is absent or not negative, the fallback
    tier is queried exactly when the candidates of tiers 1-2 yield no URI,
    be it that there are none or that all were rejected. *)
Theorem tiers_are_queried_when_needed root max :
  (Query relaxed_path ∈ trace (extract_uris_data root max)
   ↔ findall strict_path ([], root) = [])
  ∧ (cap_sane max →
     Query fallback_path ∈ trace (extract_uris_data root max)
     ↔ accepted src_of (tier12 root) = []).
Proof.
  split.
  - split.
    + intros [H|[H _]]%elem_of_extract_trace.
      * apply elem_of_queries12 in H as [H|[_ H]]; [|done].
        by destruct relaxed_not_strict.
      * by destruct fallback_not_relaxed.
    + intros Hs. rewrite extract_uris_data_eq. cbv zeta.
      assert (Query relaxed_path ∈ queries12 root) as Hq.
      { unfold queries12. rewrite Hs. right. left. }
      destruct (result (scan img_warning src_of max (tier12 root) []))
        as [[[|u d]|d]| |]; unfold trace; cbn [fst snd];
        rewrite elem_of_app; by left.
  - intros Hsane. split.
    + intros [H|[_ H]]%elem_of_extract_trace; [|done].
      apply elem_of_queries12 in H as [H|[H _]].
      * by destruct fallback_not_strict.
      * by destruct fallback_not_relaxed.
    + intros Hnone. rewrite extract_uris_data_eq. cbv zeta.
      rewrite (scan_through _ _ max (tier12 root));
        [|rewrite Hnone; by apply cap_sane_start].
      rewrite Hnone. unfold trace, result. cbn [fst snd app].
      rewrite !elem_of_app, elem_of_cons. right. right. by left.
Qed.

Lemma tiers_are_queried_when_needed_witness :
  Query fallback_path ∈ trace (extract_uris_data Sample.images_only None).
Proof.
  destruct (tiers_are_queried_when_needed Sample.images_only None) as [_ H].
  apply H; [done|]. by vm_compute.
Defined.
End extraction_more.

(** ** The relaxed and fallback tiers, and the order of the result *)

Section tier_order.
Implicit Types (root e x : Element) (p q r : ref) (n m : node) (tg : str).

Lemma IMAGE_not_star : Tag.IMAGE ≠ star.
Proof. by vm_compute. Qed.

(** Without nesting, the [div.anilist] elements lie side by side. *)
Lemma anilist_side_by_side root :
  anilist_not_nested root →
  StronglySorted node_left_of (findall anilist_path ([], root)).
Proof.
  intros Hnest.
  apply (StronglySorted_weaken node_before); [apply anilist_sorted|].
  intros [a ea] [b eb] Ha Hb Hab.
  apply elem_of_anilist in Ha as (ra & Hra & -> & Hea & Hda).
  apply elem_of_anilist in Hb as (rb & Hrb & -> & Heb & Hdb).
  destruct (doc_before_cases _ _ Hab) as [Hin|Hleft]; [|done].
  by destruct (Hnest ra rb ea eb).
Qed.

Lemma select_descendant_sorted tg (l : list node) :
  tg ≠ star → StronglySorted node_left_of l →
  StronglySorted node_before (select (Descendant tg) l).
Proof.
  intros Htg. simpl. induction 1 as [|n l _ IH Hn]; [constructor|].
  rewrite bind_cons. apply StronglySorted_app. split_and!; [| |done].
  - intros [q1 x1] [q2 x2] H1 ([p e] & H2 & Hl)%list_elem_of_bind.
    destruct n as [p0 e0].
    rewrite <-(findall_descendant tg (p0, e0)), elem_of_descendant in H1 by done.
    rewrite <-(findall_descendant tg (p, e)), elem_of_descendant in H2 by done.
    destruct H1 as (r1 & _ & -> & _). destruct H2 as (r2 & _ & -> & _).
    rewrite Forall_forall in Hn.
    apply left_of_doc_before, left_of_app, (Hn _ Hl).
  - rewrite <-(findall_descendant tg n). by apply descendant_sorted.
Qed.

Lemma sorted_fst_NoDup (l : list node) :
  StronglySorted node_before l → NoDup l.*1.
Proof.
  intros Hs. apply (StronglySorted_NoDup (λ a b, doc_before a b = true)).
  - intros a. by rewrite doc_before_irrefl.
  - by apply StronglySorted_fmap with (R1 := node_before).
Qed.

Lemma relaxed_sorted root :
  anilist_not_nested root →
  StronglySorted node_before (findall relaxed_path ([], root)).
Proof.
  intros Hnest. rewrite findall_relaxed.
  apply select_descendant_sorted; [apply IMG_not_star|].
  by apply anilist_side_by_side.
Qed.

(** X8. The relaxed tier collects exactly the XHTML [img] elements that
    lie, at any depth, beneath an XHTML [div] of class [anilist] beneath
    the document element; when no such [div] lies inside another one, it
    lists each of them once, in document order. *)
Theorem relaxed_tier_collects root :
  (∀ q x, (q, x) ∈ findall relaxed_path ([], root) ↔
     get_at root q = Some x ∧ tag x = Tag.IMG ∧
     ∃ a ea, a ≠ [] ∧ beneath a q
             ∧ get_at root a = Some ea ∧ div_of_class "anilist" ea)
  ∧ (anilist_not_nested root →
     StronglySorted node_before (findall relaxed_path ([], root))
     ∧ NoDup (findall relaxed_path ([], root)).*1).
Proof.
  split.
  - intros q x. rewrite elem_of_relaxed. split.
    + intros (a & ea & r & Ha & Hea & Hdiv & Hr & -> & Hx & Ht).
      split_and!; [done..|]. exists a, ea. split_and!; [done| |done..].
      by exists r.
    + intros (Hx & Ht & a & ea & Ha & (r & Hr & ->) & Hea & Hdiv).
      by exists a, ea, r.
  - intros Hnest. pose proof (relaxed_sorted root Hnest) as Hs.
    split; [done|]. by apply sorted_fst_NoDup.
Qed.

Lemma relaxed_tier_collects_witness :
  StronglySorted node_before (findall relaxed_path ([], Sample.good_then_link)).
Proof.
  destruct (relaxed_tier_collects Sample.good_then_link) as [_ H].
  by destruct (H good_then_link_not_nested).
Defined.

Lemma findall_fallback n :
  findall fallback_path n = findall [SelfStep; Descendant Tag.IMAGE] n.
Proof.
  destruct prefixed_tags as (_ & _ & Himage & _).
  unfold fallback_path. by rewrite Himage.
Qed.

Lemma elem_of_fallback root q x :
  (q, x) ∈ findall fallback_path ([], root) ↔
  q ≠ [] ∧ get_at root q = Some x ∧ tag x = Tag.IMAGE.
Proof.
  rewrite findall_fallback, elem_of_descendant by apply IMAGE_not_star.
  simpl. split.
  - by intros (r & ? & -> & ? & ?).
  - intros (? & ? & ?). by exists q.
Qed.

Lemma fallback_sorted root :
  StronglySorted node_before (findall fallback_path ([], root)).
Proof. rewrite findall_fallback. apply descendant_sorted, IMAGE_not_star. Qed.

(** X9. The fallback tier collects exactly the [svg:image] elements
    beneath the document element, each once, in document order. *)
Theorem fallback_tier_collects root :
  (∀ q x, (q, x) ∈ findall fallback_path ([], root) ↔
     q ≠ [] ∧ get_at root q = Some x ∧ tag x = Tag.IMAGE)
  ∧ StronglySorted node_before (findall fallback_path ([], root))
  ∧ NoDup (findall fallback_path ([], root)).*1.
Proof.
  split_and!.
  - apply elem_of_fallback.
  - apply fallback_sorted.
  - apply sorted_fst_NoDup, fallback_sorted.
Qed.

Lemma tier12_sorted root :
  anilist_not_nested root → StronglySorted node_before (tier12 root).
Proof.
  intros Hnest. unfold tier12.
  destruct (findall strict_path ([], root)) as [|c cs] eqn:E.
  - by apply relaxed_sorted.
  - rewrite <-E.
    apply (StronglySorted_weaken node_left_of); [by apply strict_sorted|].
    intros n m _ _. apply node_left_of_before.
Qed.

Lemma tier12_placed root : Forall (placed root) (tier12 root).
Proof.
  apply Forall_forall. intros [q x]. unfold tier12, placed. simpl.
  destruct (findall strict_path ([], root)) as [|c cs] eqn:E.
  - by intros (a & ea & r & _ & _ & _ & _ & _ & Hx & _)%elem_of_relaxed.
  - rewrite <-E.
    by intros (a & i & j & ea & ec & _ & _ & _ & _ & _ & _ & Hx & _)%elem_of_strict.
Qed.

Lemma fallback_placed root :
  Forall (placed root) (findall fallback_path ([], root)).
Proof.
  apply Forall_forall. intros [q x] H.
  by apply elem_of_fallback in H as (_ & Hx & _).
Qed.

(** The URIs of a list of candidates that is in document order come in
    the order of the elements that yield them. *)
Lemma length_accepted_of_le uri : (length (accepted_of uri) ≤ 1)%nat.
Proof.
  unfold accepted_of. destruct uri as [u|]; [|simpl; lia].
  destruct (is_data_uri (Some u)); simpl; lia.
Qed.

Lemma accepted_lookup (uri_of : Element → option str) (cs : list node) i u :
  accepted uri_of cs !! i = Some u →
  ∃ a n, cs !! a = Some n ∧ accepted_of (uri_of n.2) = [u]
         ∧ i = length (accepted uri_of (take a cs)).
Proof.
  revert i. induction cs as [|c cs IH]; intros i; [done|].
  unfold accepted in *. rewrite bind_cons.
  pose proof (length_accepted_of_le (uri_of c.2)) as Hlen.
  destruct (accepted_of (uri_of c.2)) as [|w [|w' ws]] eqn:E;
    [|clear Hlen|simpl in Hlen; lia].
  - simpl. intros (a & n & Ha & Hn & ->)%IH.
    exists (S a), n. split_and!; [done..|].
    change (take (S a) (c :: cs)) with (c :: take a cs).
    by rewrite bind_cons, E.
  - destruct i as [|i]; simpl.
    + intros [= ->]. by exists 0%nat, c.
    + intros (a & n & Ha & Hn & ->)%IH.
      exists (S a), n. split_and!; [done..|].
      change (take (S a) (c :: cs)) with (c :: take a cs).
      by rewrite bind_cons, E.
Qed.

Lemma accepted_take_mono (uri_of : Element → option str) (cs : list node) a b :
  (a ≤ b)%nat →
  (length (accepted uri_of (take a cs))
   ≤ length (accepted uri_of (take b cs)))%nat.
Proof.
  intros Hab. rewrite <-(take_drop a (take b cs)), take_take.
  replace (a `min` b)%nat with a by lia.
  unfold accepted. rewrite bind_app, length_app. lia.
Qed.

Lemma StronglySorted_lookup_lt {A} (R : relation A) (l : list A)
  (a b : nat) (v w : A) :
  StronglySorted R l → (a < b)%nat → l !! a = Some v → l !! b = Some w →
  R v w.
Proof.
  intros Hs. revert a b.
  induction Hs as [|z l Hs IH Hall]; intros a b Hab Ha Hb; [done|].
  destruct b as [|b]; [lia|]. destruct a as [|a]; simpl in *.
  - injection Ha as ->. eapply Forall_forall; [done|].
    by eapply list_elem_of_lookup_2.
  - eapply IH; [|done..]. lia.
Qed.

Lemma accepted_order (uri_of : Element → option str) (cs : list node) :
  StronglySorted node_before cs →
  ∀ i j u v, (i < j)%nat →
    accepted uri_of cs !! i = Some u → accepted uri_of cs !! j = Some v →
    ∃ a b n m,
      (a < b)%nat ∧ cs !! a = Some n ∧ cs !! b = Some m
      ∧ accepted_of (uri_of n.2) = [u] ∧ accepted_of (uri_of m.2) = [v]
      ∧ doc_before n.1 m.1 = true.
Proof.
  intros Hs i j u v Hij (a & n & Ha & Hn & ->)%accepted_lookup
    (b & m & Hb & Hm & ->)%accepted_lookup.
  assert (a < b)%nat as Hab.
  { destruct (decide (a < b)%nat) as [|Hge]; [done|].
    pose proof (accepted_take_mono uri_of cs b a ltac:(lia)). lia. }
  exists a, b, n, m. split_and!; [done..|].
  by apply (StronglySorted_lookup_lt node_before cs a b).
Qed.

(** X10. When no [div.anilist] lies inside another one, the URIs a run
    returns follow the document order of the elements they were read
    from. The run scans an initial part of the candidates of tiers 1-2,
    or, only when all of these yield no URI, an initial part of the
    [svg:image] elements; the elements scanned are elements of the
    document, listed in document order; and the result is made of the
    URIs they yield, in that order: if two URIs of the result come from
    different elements, the element of the earlier URI precedes the
    element of the later one in the document. *)
Theorem result_in_document_order root max uris :
  anilist_not_nested root →
  result (extract_uris_data root max) = Ret uris →
  ∃ (scanned : list node) (uri_of : Element → option str),
    ((scanned `prefix_of` tier12 root ∧ uri_of = src_of)
     ∨ (accepted src_of (tier12 root) = []
        ∧ scanned `prefix_of` findall fallback_path ([], root)
        ∧ uri_of = href_of))
    ∧ StronglySorted node_before scanned
    ∧ Forall (placed root) scanned
    ∧ uris = accepted uri_of scanned
    ∧ ∀ i j u v, (i < j)%nat → uris !! i = Some u → uris !! j = Some v →
        ∃ a b n m,
          (a < b)%nat ∧ scanned !! a = Some n ∧ scanned !! b = Some m
          ∧ accepted_of (uri_of n.2) = [u] ∧ accepted_of (uri_of m.2) = [v]
          ∧ doc_before n.1 m.1 = true.
Proof.
  intros Hnest. rewrite extract_uris_data_eq. cbv zeta.
  destruct (scan_total img_warning src_of max (tier12 root) []) as [f12 H12].
  destruct (scan_total image_warning href_of max
              (findall fallback_path ([], root)) []) as [f3 H3].
  destruct (scan_prefix _ _ _ _ _ _ H12) as (pre12 & post12 & E12 & V12 & _).
  destruct (scan_prefix _ _ _ _ _ _ H3) as (pre3 & post3 & E3 & V3 & _).
  assert (StronglySorted node_before pre12 ∧ Forall (placed root) pre12)
    as [S12 P12].
  { pose proof (tier12_sorted root Hnest) as Hs.
    pose proof (tier12_placed root) as Hp. rewrite E12 in Hs, Hp.
    split; [by apply StronglySorted_app_1_l in Hs|by apply Forall_app in Hp as [? _]]. }
  assert (StronglySorted node_before pre3 ∧ Forall (placed root) pre3)
    as [S3 P3].
  { pose proof (fallback_sorted root) as Hs.
    pose proof (fallback_placed root) as Hp. rewrite E3 in Hs, Hp.
    split; [by apply StronglySorted_app_1_l in Hs|by apply Forall_app in Hp as [? _]]. }
  rewrite H12. simpl in V12, V3.
  destruct f12 as [[|u d]|d]; simpl in *.
  - rewrite H3. destruct (flow_value f3) as [|u d] eqn:E; [done|].
    intros [= <-]. rewrite V3. exists pre3, href_of.
    split_and!; [|done..|by apply accepted_order].
    right. split_and!; [|by exists post3|done].
    by apply scan_next in H12.
  - intros [= <-]. rewrite V12. exists pre12, src_of.
    split_and!; [|done..|by apply accepted_order].
    left. split; [by exists post12|done].
  - intros [= <-]. rewrite V12. exists pre12, src_of.
    split_and!; [|done..|by apply accepted_order].
    left. split; [by exists post12|done].
Qed.

Lemma result_in_document_order_witness :
  ∃ (scanned : list node),
    scanned `prefix_of` tier12 Sample.good_then_link
    ∧ StronglySorted node_before scanned
    ∧ [strip (py Sample.uri_a)] = accepted src_of scanned.
Proof.
  destruct (result_in_document_order Sample.good_then_link None
              [strip (py Sample.uri_a)] good_then_link_not_nested)
    as (scanned & uri_of & [[Hpre ->]|[Hnone _]] & Hs & _ & Heq & _);
    [by vm_compute| |by vm_compute in Hnone].
  by exists scanned.
Defined.
End tier_order.

(** ** Selection without merge, and its failure *)

Section selection_more.
Implicit Types (root e : Element) (p q r : ref) (n m : node).

Lemma has_anilist_unmarked root n :
  placed root n → has_anilist n = false ↔ ¬ has_marker root n.1.
Proof.
  intros Hp. rewrite <-(has_anilist_marker root n Hp).
  by destruct (has_anilist n).
Qed.

(** X11. When the target document has an insertion point,
    [find_object(root, merge=False)] returns an insertion point: the
    first one in document order that contains no [div] of class
    [anilist], if there is one, and the first insertion point in document
    order otherwise. The document it leaves differs from the one it got
    only in the children of that element, of which every second one,
    starting with the second, is kept. *)
Theorem replace_selects_first_unmarked root :
  (∃ p, InsertionPoint root p) →
  ∃ r fo,
    find_object root false
    = ([Query foreign_object_path],
       Ret (r, update_at r (with_children (every_other (children fo))) root))
    ∧ InsertionPoint root r ∧ get_at root r = Some fo
    ∧ ((∃ q, InsertionPoint root q ∧ ¬ has_marker root q) →
       ¬ has_marker root r
       ∧ ∀ q, InsertionPoint root q → ¬ has_marker root q →
              q = r ∨ doc_before r q = true)
    ∧ ((∀ q, InsertionPoint root q → has_marker root q) →
       ∀ q, InsertionPoint root q → q = r ∨ doc_before r q = true).
Proof.
  intros (p & Hp & e & He & Ht).
  assert ((p, e) ∈ findall foreign_object_path ([], root)) as Hin
    by by apply elem_of_foreign_objects.
  pose proof (foreign_objects_sorted root) as Hsorted.
  rewrite find_object_eq.
  destruct (findall foreign_object_path ([], root)) as [|first rest] eqn:E;
    [by apply elem_of_nil in Hin|].
  cbv zeta. rewrite <-E in *. clear p e Hp He Ht Hin.
  assert (∀ q, InsertionPoint root q →
            ∃ eq, (q, eq) ∈ findall foreign_object_path ([], root)) as Hall.
  { intros q (Hq & eq & Heq & Htq). exists eq. by apply elem_of_foreign_objects. }
  destruct (head (filter (λ obj, has_anilist obj = false)
                    (findall foreign_object_path ([], root)))) as [x|] eqn:Hh.
  - apply StronglySorted_head_filter with (R := node_before) in Hh
      as (Hx & Hmx & Hfirst); [|done].
    destruct (elem_of_foreign_objects_1 _ _ Hx) as [HIP Hpl].
    apply (has_anilist_unmarked root x Hpl) in Hmx.
    exists x.1, x.2. simpl. split_and!; [done..| |].
    + intros _. split; [done|]. intros q Hq Hmq.
      destruct (Hall q Hq) as [eq Hin].
      destruct (elem_of_foreign_objects_1 _ _ Hin) as [_ Hplq].
      apply (has_anilist_unmarked root (q, eq) Hplq) in Hmq.
      destruct (Hfirst _ Hin Hmq) as [<-|?]; [by left|by right].
    + intros Hmarked. destruct Hmx. by apply Hmarked.
  - apply head_None in Hh.
    assert (first ∈ findall foreign_object_path ([], root)) as Hf
      by (rewrite E; left).
    destruct (elem_of_foreign_objects_1 _ _ Hf) as [HIP Hpl].
    exists first.1, first.2. simpl. split_and!; [done..| |].
    + intros (q & Hq & Hmq). destruct (Hall q Hq) as [eq Hin].
      destruct (elem_of_foreign_objects_1 _ _ Hin) as [_ Hplq].
      apply (has_anilist_unmarked root (q, eq) Hplq) in Hmq.
      assert ((q, eq) ∈ filter (λ obj : node, has_anilist obj = false)
                (findall foreign_object_path ([], root))) as Hfil
        by by apply list_elem_of_filter.
      rewrite Hh in Hfil. by apply elem_of_nil in Hfil.
    + intros _ q Hq. destruct (Hall q Hq) as [eq Hin].
      rewrite E in Hin, Hsorted.
      apply StronglySorted_cons in Hsorted as [Hfirst _].
      apply elem_of_cons in Hin as [<-|Hin]; [by left|right].
      rewrite Forall_forall in Hfirst. apply (Hfirst _ Hin).
Qed.

Lemma replace_selects_first_unmarked_witness :
  ∃ r, InsertionPoint Sample.two_objects r
       ∧ ¬ has_marker Sample.two_objects r
       ∧ result (find_object Sample.two_objects false)
         = Ret (r, Sample.svg [Sample.foreign [Sample.div "anilist" []];
                               Sample.foreign [Sample.div "right" []]]).
Proof.
  assert (InsertionPoint Sample.two_objects [1%nat]) as HIP.
  { split; [done|]. eexists. split; by vm_compute. }
  assert (¬ has_marker Sample.two_objects [1%nat]) as Hun.
  { apply (has_anilist_unmarked Sample.two_objects
             ([1%nat], Sample.foreign [Sample.div "left" [];
                                       Sample.div "right" []])); by vm_compute. }
  destruct (replace_selects_first_unmarked Sample.two_objects)
    as (r & fo & Hr & Hp & Hfo & Hunmarked & _); [by exists [1%nat]|].
  exists r. split_and!; [done|apply Hunmarked; by exists [1%nat]|].
  rewrite Hr. simpl.
  assert (result (find_object Sample.two_objects false)
          = Ret ([1%nat],
                 Sample.svg [Sample.foreign [Sample.div "anilist" []];
                             Sample.foreign [Sample.div "right" []]])) as Hc
    by by vm_compute.
  rewrite Hr in Hc. simpl in Hc. by injection Hc as -> ->.
Defined.

Lemma every_other_nil {A} (l : list A) :
  every_other l = [] ↔ (length l ≤ 1)%nat.
Proof.
  destruct l as [|a [|b l]]; simpl; split; try done; try lia.
Qed.

(** X12. Whatever [find_object(root, merge=False)] returns, the element
    keeps its tag, attributes, text and tail, and of its [n] children the
    [n / 2] at positions 1, 3, 5, ...; so it is left without children
    exactly when it had at most one. No other element of the document
    changes. *)
Theorem clearing_halves_the_children root tr r root' :
  find_object root false = (tr, Ret (r, root')) →
  ∃ fo fo',
    get_at root r = Some fo ∧ get_at root' r = Some fo'
    ∧ tag fo' = tag fo ∧ attrib fo' = attrib fo
    ∧ text fo' = text fo ∧ tail fo' = tail fo
    ∧ children fo' = every_other (children fo)
    ∧ length (children fo') = (length (children fo) / 2)%nat
    ∧ (children fo' = [] ↔ (length (children fo) ≤ 1)%nat)
    ∧ (∀ q, ¬ r `prefix_of` q →
            shallow <$> get_at root' q = shallow <$> get_at root q)
    ∧ (∀ q, ¬ r `prefix_of` q → ¬ q `prefix_of` r →
            get_at root' q = get_at root q).
Proof.
  intros (fo & _ & Hfo & ->)%find_object_spec.
  exists fo, (with_children (every_other (children fo)) fo).
  split_and!; try done.
  - by rewrite get_at_update_at, Hfo.
  - apply length_every_other.
  - apply every_other_nil.
  - intros q Hq. by apply shallow_update_at.
  - intros q Hrq Hqr. by apply get_at_update_at_apart.
Qed.

Lemma clearing_halves_the_children_witness :
  ∃ fo', get_at (Sample.svg [Sample.foreign [Sample.div "anilist" []];
                             Sample.foreign [Sample.div "right" []]]) [1%nat]
         = Some fo'
         ∧ length (children fo') = 1%nat.
Proof.
  destruct (clearing_halves_the_children Sample.two_objects
              [Query foreign_object_path] [1%nat]
              (Sample.svg [Sample.foreign [Sample.div "anilist" []];
                           Sample.foreign [Sample.div "right" []]]))
    as (fo & fo' & Hfo & Hfo' & _ & _ & _ & _ & _ & Hlen & _); [by vm_compute|].
  exists fo'. split; [done|]. rewrite Hlen.
  vm_compute in Hfo. by injection Hfo as <-.
Defined.

(** X13. [find_object] fails exactly when the document has no insertion
    point: it then exits with status 1 and the message about the missing
    [foreignObject], after its one query. It never raises [ValueError]:
    the child its loop removes is always found. *)
Theorem find_object_fails_without_insertion_point root merge :
  (find_object root merge
   = ([Query foreign_object_path], Exit 1 no_foreign_object)
   ↔ ¬ ∃ p, InsertionPoint root p)
  ∧ (∀ exc, result (find_object root merge) ≠ Raise exc)
  ∧ (∀ code msg, result (find_object root merge) = Exit code msg →
       code = 1 ∧ msg = no_foreign_object).
Proof.
  rewrite find_object_eq.
  destruct (findall foreign_object_path ([], root)) as [|first rest] eqn:E.
  - split_and!; [|done|by intros ?? [= <- <-]].
    split; [|done]. intros _ (p & Hp & e & He & Ht).
    assert ((p, e) ∈ findall foreign_object_path ([], root)) as Hin
      by by apply elem_of_foreign_objects.
    rewrite E in Hin. by apply elem_of_nil in Hin.
  - cbv zeta. split_and!; [|done..].
    split; [done|]. intros Hnone. destruct Hnone.
    assert (first ∈ findall foreign_object_path ([], root)) as Hf
      by (rewrite E; left).
    exists first.1. by apply elem_of_foreign_objects_1.
Qed.
End selection_more.

(** ** Runs of [inject] *)

Section inject_more.
Implicit Types (root e : Element) (p q r : ref) (max : option Z).

Lemma result_bind {A B} (m : M A) (k : A → M B) :
  result (m ≫= k) =
    match result m with
    | Ret a => result (k a)
    | Exit code msg => Exit code msg
    | Raise exc => Raise exc
    end.
Proof. by destruct m as [tr [a| |]]. Qed.

Lemma result_ret {A} (tr : list event) (a : A) : result (tr, Ret a) = Ret a.
Proof. done. Qed.

Lemma result_exit {A} (tr : list event) code msg :
  result (A := A) (tr, Exit code msg) = Exit code msg.
Proof. done. Qed.

Lemma result_parse_svg fs path :
  result (parse_svg fs path) =
    match fs path with
    | None => Exit 1 (py "SVG not found: " ++ path)
    | Some (Malformed e) =>
        Exit 1 (py "Failed to parse SVG '" ++ path ++ py "': " ++ e)
    | Some (Unreadable exc) => Raise exc
    | Some (Document root) => Ret root
    end.
Proof. unfold parse_svg. by destruct (fs path) as [[]|]. Qed.

Lemma extract_outcome root max :
  (∃ uris, result (extract_uris_data root max) = Ret uris)
  ∨ result (extract_uris_data root max) = Exit 1 no_data_uris.
Proof.
  rewrite extract_uris_data_eq. cbv zeta.
  destruct (scan_total img_warning src_of max (tier12 root) []) as [f12 H12].
  destruct (scan_total image_warning href_of max
              (findall fallback_path ([], root)) []) as [f3 H3].
  rewrite H12. destruct f12 as [[|u d]|d]; simpl; [|left; by eexists..].
  rewrite H3. destruct (flow_value f3); [by right|left; by eexists].
Qed.

Lemma find_object_outcome root merge :
  ((∃ p, InsertionPoint root p)
   ∧ ∃ r root', find_object root merge
                = ([Query foreign_object_path], Ret (r, root')))
  ∨ ((¬ ∃ p, InsertionPoint root p)
     ∧ find_object root merge
       = ([Query foreign_object_path], Exit 1 no_foreign_object)).
Proof.
  rewrite find_object_eq.
  destruct (findall foreign_object_path ([], root)) as [|first rest] eqn:E.
  - right. split; [|done]. intros (p & Hp & e & He & Ht).
    assert ((p, e) ∈ findall foreign_object_path ([], root)) as Hin
      by by apply elem_of_foreign_objects.
    rewrite E in Hin. by apply elem_of_nil in Hin.
  - left. cbv zeta. split; [|destruct merge; by do 2 eexists].
    assert (first ∈ findall foreign_object_path ([], root)) as Hf
      by (rewrite E; left).
    exists first.1. by apply elem_of_foreign_objects_1.
Qed.

(** What the document that [inject] writes holds at the insertion point. *)
Lemma inject_inv fs target_svg source_svg max width height merge tr doc :
  inject fs target_svg source_svg max width height merge = (tr, Ret doc) →
  ∃ source uris target r fo,
    fs source_svg = Some (Document source)
    ∧ result (extract_uris_data source max) = Ret uris
    ∧ fs target_svg = Some (Document target)
    ∧ InsertionPoint target r ∧ get_at target r = Some fo
    ∧ get_at doc r
      = Some (mkElement (tag fo) (geometry (attrib fo)) (text fo) (tail fo)
                ((if merge then children fo else every_other (children fo))
                   ++ build_anilist_section uris width height)).
Proof.
  unfold inject.
  intros (tr1 & source & tr2 & Hsource & H & _)%bind_Ret_inv.
  apply parse_svg_Ret in Hsource.
  apply bind_Ret_inv in H as (tr3 & uris & tr4 & Huris & H & _).
  apply (f_equal snd) in Huris.
  apply bind_Ret_inv in H as (tr5 & [] & tr6 & _ & H & _).
  apply bind_Ret_inv in H as (tr7 & target & tr8 & Htarget & H & _).
  apply parse_svg_Ret in Htarget.
  apply bind_Ret_inv in H as (tr9 & [r root'] & tr10 & Hfind & H & _).
  apply find_object_spec in Hfind as (fo & HIP & Hfo & ->).
  injection H as _ <-.
  exists source, uris, target, r, fo. split_and!; [done..|].
  simpl. rewrite !get_at_update_at.
  destruct merge.
  - rewrite Hfo. simpl. unfold append, set, with_children, geometry. simpl.
    by rewrite <-!app_assoc.
  - rewrite get_at_update_at, Hfo. simpl.
    unfold append, set, with_children, geometry. simpl.
    by rewrite <-!app_assoc.
Qed.

(** X14. [inject] reaches the write exactly when the source file parses,
    the extraction returns, the target file parses and the target has an
    insertion point. It ends in an uncaught exception exactly when
    reading a file raises one that [parse_svg] does not catch, that is
    one that is not a [ParseError], on the source or, after a successful
    extraction, on the target; the [ValueError] of [remove] never occurs.
    In every other case it exits, always with status 1. *)
Theorem inject_succeeds_or_exits fs target_svg source_svg max width height merge :
  ((∃ doc, result (inject fs target_svg source_svg max width height merge)
           = Ret doc)
   ↔ ∃ source target uris,
       fs source_svg = Some (Document source)
       ∧ result (extract_uris_data source max) = Ret uris
       ∧ fs target_svg = Some (Document target)
       ∧ ∃ p, InsertionPoint target p)
  ∧ (∀ exc, result (inject fs target_svg source_svg max width height merge)
            = Raise exc
            ↔ fs source_svg = Some (Unreadable exc)
              ∨ ∃ source uris,
                  fs source_svg = Some (Document source)
                  ∧ result (extract_uris_data source max) = Ret uris
                  ∧ fs target_svg = Some (Unreadable exc))
  ∧ (∀ code msg,
       result (inject fs target_svg source_svg max width height merge)
       = Exit code msg → code = 1).
Proof.
  assert (∀ path root, fs path = Some (Document root) →
            parse_svg fs path = ([], Ret root)) as Hparse.
  { intros path root H. unfold parse_svg. by rewrite H. }
  assert (∀ msg, result (info msg) = Ret ()) as Hinfo by done.
  split.
  { split.
    - intros [doc Hdoc].
      destruct (inject fs target_svg source_svg max width height merge)
        as [tr o] eqn:E. simpl in Hdoc. subst o.
      apply inject_inv in E
        as (source & uris & target & r & fo & ? & ? & ? & ? & _).
      exists source, target, uris. split_and!; [done..|]. by exists r.
    - intros (source & target & uris & Hs & Hu & Ht & HIP).
      destruct (find_object_outcome target merge)
        as [[_ (r & root' & Hf)]|[Hno _]]; [|done].
      unfold inject.
      rewrite result_bind, (Hparse _ _ Hs), result_ret. cbv beta iota.
      rewrite result_bind, Hu. cbv beta iota.
      rewrite result_bind, Hinfo. cbv beta iota.
      rewrite result_bind, (Hparse _ _ Ht), result_ret. cbv beta iota.
      rewrite result_bind, Hf, result_ret. cbv beta iota.
      by eexists. }
  unfold inject. rewrite result_bind, result_parse_svg.
  destruct (fs source_svg) as [[e|exc0|source]|] eqn:Hs; cbv beta iota.
  - split; [|by intros ?? [= <- _]].
    intros exc. split; [done|]. by intros [?|(? & ? & ? & _)].
  - split; [|done].
    intros exc. split; [intros [= ->]; by left|].
    by intros [[= ->]|(? & ? & ? & _)].
  - rewrite result_bind.
    destruct (extract_outcome source max) as [[uris Hu]|Hu]; rewrite Hu;
      cbv beta iota.
    + rewrite result_bind, Hinfo. cbv beta iota.
      rewrite result_bind, result_parse_svg.
      destruct (fs target_svg) as [[e|exc0|target]|] eqn:Ht; cbv beta iota.
      * split; [|by intros ?? [= <- _]].
        intros exc. split; [done|].
        by intros [?|(? & ? & _ & _ & ?)].
      * split; [|done].
        intros exc. split.
        -- intros [= ->]. right. by exists source, uris.
        -- by intros [?|(? & ? & _ & _ & [= ->])].
      * rewrite result_bind.
        destruct (find_object_outcome target merge)
          as [[_ (r & root' & ->)]|[_ ->]];
          rewrite ?result_ret, ?result_exit; cbv beta iota.
        -- split; [|done]. intros exc. split; [done|].
           by intros [?|(? & ? & _ & _ & ?)].
        -- split; [|by intros ?? [= <- _]].
           intros exc. split; [done|].
           by intros [?|(? & ? & _ & _ & ?)].
      * split; [|by intros ?? [= <- _]].
        intros exc. split; [done|].
        by intros [?|(? & ? & _ & _ & ?)].
    + split; [|by intros ?? [= <- _]].
      intros exc. split; [done|].
      intros [?|(s0 & u0 & [= <-] & Hu0 & _)]; [done|]. congruence.
  - split; [|by intros ?? [= <- _]].
    intros exc. split; [done|]. by intros [?|(? & ? & ? & _)].
Qed.
(** The [div.anilist] of the fragment and its [div.characters]. *)
Lemma fragment_anatomy (uris : list str) (width height : Z) :
  ∃ items metrics ea ec,
    build_anilist_section uris width height = [items; metrics]
    ∧ get_at items [0; 0; 0; 0]%nat = Some ea ∧ div_of_class "anilist" ea
    ∧ get_at items [0; 0; 0; 0; 0]%nat = Some ec
    ∧ div_of_class "characters" ec
    ∧ children ec = (λ uri, img uri width height) <$> uris.
Proof.
  unfold build_anilist_section. cbv zeta. do 4 eexists.
  split_and!; try reflexivity; split; try reflexivity;
    unfold get, element; simpl; apply lookup_singleton_eq.
Qed.

Lemma src_of_img uri width height : src_of (img uri width height) = Some uri.
Proof. unfold src_of, get, img. simpl. apply lookup_insert_eq. Qed.

(** Where the document that [inject] writes holds the [img] of the
    [i]-th URI. *)
Lemma inject_img_candidates fs target_svg source_svg max width height merge
  tr doc :
  inject fs target_svg source_svg max width height merge = (tr, Ret doc) →
  ∃ source uris target r (k : nat),
    fs source_svg = Some (Document source)
    ∧ result (extract_uris_data source max) = Ret uris
    ∧ fs target_svg = Some (Document target)
    ∧ InsertionPoint target r ∧ InsertionPoint doc r
    ∧ has_marker doc r
    ∧ ∀ i uri, uris !! i = Some uri →
        strict_candidate doc (r ++ [k; 0; 0; 0; 0] ++ [0; i])%nat
          (img uri width height).
Proof.
  intros (source & uris & target & r & fo & Hs & Hu & Ht & HIP & Hfo & Hdoc)
    %inject_inv.
  destruct (fragment_anatomy uris width height)
    as (items & metrics & ea & ec & Hfrag & Hea & Hda & Hec & Hdc & Hkids).
  set (kept := if merge then children fo else every_other (children fo)) in *.
  assert (∀ q, get_at doc (r ++ length kept :: q) = get_at items q) as Hitems.
  { intros q. rewrite get_at_app, Hdoc. simpl.
    rewrite Hfrag, lookup_app_r, Nat.sub_diag by done. done. }
  assert (r ++ [length kept; 0; 0; 0; 0]%nat ≠ []) as Hne by by destruct r.
  exists source, uris, target, r, (length kept).
  split_and!; try done.
  - destruct HIP as (Hr & e & He & Htag). split; [done|].
    eexists. split; [done|]. simpl. congruence.
  - exists (r ++ [length kept; 0; 0; 0; 0]%nat), ea.
    split_and!; [by exists [length kept; 0; 0; 0; 0]%nat|by rewrite Hitems|done].
  - intros i uri Hi.
    exists (r ++ [length kept; 0; 0; 0; 0]%nat), 0%nat, i, ea, ec.
    rewrite <-!app_assoc. simpl.
    split_and!; try done.
    + by rewrite Hitems.
    + by rewrite Hitems.
    + change (r ++ length kept :: [0; 0; 0; 0; 0; i]%nat)
        with (r ++ length kept :: [0; 0; 0; 0; 0]%nat ++ [i]).
      rewrite Hitems, (get_at_snoc _ _ _ _ Hec), Hkids, list_lookup_fmap, Hi.
      done.
Qed.



(** X16. In the document that [inject] writes, the [img] of every
    extracted URI is a candidate of the strict tier: the fragment has the
    shape that the extraction looks for first. *)
Theorem injected_imgs_are_strict_candidates fs target_svg source_svg max
  width height merge tr doc :
  inject fs target_svg source_svg max width height merge = (tr, Ret doc) →
  ∃ source uris,
    fs source_svg = Some (Document source)
    ∧ result (extract_uris_data source max) = Ret uris
    ∧ ∀ uri, uri ∈ uris →
        ∃ q, (q, img uri width height) ∈ findall strict_path ([], doc).
Proof.
  intros (source & uris & target & r & k & Hs & Hu & _ & _ & _ & _ & Hc)
    %inject_img_candidates.
  exists source, uris. split_and!; [done..|].
  intros uri (i & Hi)%list_elem_of_lookup_1.
  eexists. apply elem_of_strict. by apply Hc.
Qed.

Lemma injected_imgs_are_strict_candidates_witness :
  ∃ tr doc q,
    inject Sample.files (py "target.svg") (py "source.svg") None 36 54 false
    = (tr, Ret doc)
    ∧ (q, img (py Sample.uri_a) 36 54) ∈ findall strict_path ([], doc).
Proof.
  assert (∃ tr doc,
            inject Sample.files (py "target.svg") (py "source.svg") None 36 54
              false = (tr, Ret doc)) as (tr & doc & Hrun)
    by (vm_compute; by do 2 eexists).
  destruct (injected_imgs_are_strict_candidates _ _ _ _ _ _ _ _ _ Hrun)
    as (source & uris & Hs & Hu & Hc).
  assert (source = Sample.good_then_link) as ->.
  { assert (Sample.files (py "source.svg")
            = Some (Document Sample.good_then_link)) as Hf by by vm_compute.
    congruence. }
  assert (uris = [py Sample.uri_a]) as ->.
  { assert (result (extract_uris_data Sample.good_then_link None)
            = Ret [py Sample.uri_a]) as Hr by by vm_compute.
    congruence. }
  destruct (Hc (py Sample.uri_a)) as [q Hq]; [left|].
  by exists tr, doc, q.
Defined.

(** X17. The document that [inject] writes can be the source of another
    run: when the first run extracted at least one URI, extracting from
    its output without a cap returns, and returns every URI of the first
    run. *)
Theorem output_round_trip fs target_svg source_svg max width height merge
  tr doc :
  inject fs target_svg source_svg max width height merge = (tr, Ret doc) →
  ∃ source uris,
    fs source_svg = Some (Document source)
    ∧ result (extract_uris_data source max) = Ret uris
    ∧ (uris ≠ [] →
       ∃ uris', result (extract_uris_data doc None) = Ret uris'
                ∧ ∀ uri, uri ∈ uris → uri ∈ uris').
Proof.
  intros (source & uris & target & r & k & Hs & Hu & _ & _ & _ & _ & Hc)
    %inject_img_candidates.
  exists source, uris. split_and!; [done..|]. intros Hne.
  assert (∀ uri, uri ∈ uris → uri ∈ accepted src_of (tier12 doc)) as Hall.
  { intros uri Hin.
    destruct (returned_uri_valid _ _ _ _ Hu Hin) as (_ & Hstrip & Hvalid).
    apply list_elem_of_lookup_1 in Hin as (i & Hi).
    apply Hc, elem_of_strict in Hi.
    unfold accepted. apply list_elem_of_bind.
    exists (r ++ [k; 0; 0; 0; 0] ++ [0; i], img uri width height)%nat. split.
    - cbn [snd]. rewrite src_of_img. unfold accepted_of. rewrite Hvalid, Hstrip.
      left.
    - unfold tier12.
      destruct (findall strict_path ([], doc)); [by apply elem_of_nil in Hi|done]. }
  exists (accepted src_of (tier12 doc)). split; [|done].
  rewrite extract_result_sane by done. simpl.
  destruct (accepted src_of (tier12 doc)) as [|u l] eqn:E; [|done].
  destruct uris as [|u0 uris]; [done|].
  specialize (Hall u0 ltac:(left)). by apply elem_of_nil in Hall.
Qed.

Lemma output_round_trip_witness :
  ∃ tr doc uris',
    inject Sample.files (py "target.svg") (py "source.svg") None 36 54 false
    = (tr, Ret doc)
    ∧ result (extract_uris_data doc None) = Ret uris'
    ∧ py Sample.uri_a ∈ uris'.
Proof.
  assert (∃ tr doc,
            inject Sample.files (py "target.svg") (py "source.svg") None 36 54
              false = (tr, Ret doc)) as (tr & doc & Hrun)
    by (vm_compute; by do 2 eexists).
  destruct (output_round_trip _ _ _ _ _ _ _ _ _ Hrun)
    as (source & uris & Hs & Hu & Hc).
  assert (source = Sample.good_then_link) as ->.
  { assert (Sample.files (py "source.svg")
            = Some (Document Sample.good_then_link)) as Hf by by vm_compute.
    congruence. }
  assert (uris = [py Sample.uri_a]) as ->.
  { assert (result (extract_uris_data Sample.good_then_link None)
            = Ret [py Sample.uri_a]) as Hr by by vm_compute.
    congruence. }
  destruct (Hc ltac:(done)) as (uris' & Hres & Hall).
  exists tr, doc, uris'. split_and!; [done..|]. apply Hall. left.
Defined.


End inject_more.

Section round_trip.

Lemma iter_div_element tg a cs p :
  iter (Some Tag.DIV) p (element tg a cs)
  = (if bool_decide (tg = Tag.DIV) then [(p, element tg a cs)] else [])
    ++ iter_children (Some Tag.DIV) p 0 cs.
Proof. by rewrite iter_unfold, wildcard_tag by apply DIV_not_star. Qed.

Lemma iter_children_cons otg p i c cs :
  iter_children otg p i (c :: cs)
  = iter otg (p ++ [i]) c ++ iter_children otg p (S i) cs.
Proof. done. Qed.

Lemma iter_children_div_imgs p i (uris : list str) width height :
  iter_children (Some Tag.DIV) p i ((λ uri, img uri width height) <$> uris)
  = [].
Proof.
  revert i. induction uris as [|u uris IH]; intros i; [done|].
  rewrite fmap_cons, iter_children_cons, IH. unfold img.
  rewrite iter_div_element, bool_decide_eq_false_2 by by vm_compute. done.
Qed.

Lemma kids_imgs p tg a (uris : list str) width height :
  filter (λ n : node, tag n.2 = Tag.IMG)
    (kids (p, element tg a ((λ uri, img uri width height) <$> uris)))
  = imap (λ i uri, (p ++ [i], img uri width height)) uris.
Proof.
  unfold kids. simpl. rewrite imap_fmap.
  enough (∀ f : nat → list nat,
            filter (λ n : node, tag n.2 = Tag.IMG)
              (imap (λ i, (λ c, (f i, c)) ∘ λ uri, img uri width height) uris)
            = imap (λ i uri, (f i, img uri width height)) uris) as H
    by apply (H (λ i, p ++ [i])).
  induction uris as [|u uris IH]; intros f; [done|]. simpl.
  rewrite filter_cons_True by done. f_equal. apply (IH (f ∘ S)).
Qed.

(** The [div.anilist] elements of a document that holds just the
    fragment. *)
Lemma anilist_of_fragment tg a tx tl (uris : list str) width height :
  findall anilist_path
    ([], mkElement tg a tx tl (build_anilist_section uris width height))
  = [([0; 0; 0; 0; 0]%nat,
      element Tag.DIV {[py "class" := py "anilist"]}
        [element Tag.DIV {[py "class" := py "characters"]}
           ((λ uri, img uri width height) <$> uris)])].
Proof.
  rewrite findall_anilist, findall_descendant. cbn [fst snd].
  rewrite iter_unfold, wildcard_tag by apply DIV_not_star.
  unfold build_anilist_section. cbv zeta. cbn [children].
  rewrite !iter_children_cons.
  repeat (rewrite iter_div_element; rewrite ?iter_children_cons).
  rewrite iter_children_div_imgs.
  rewrite !bool_decide_eq_true_2 by done.
  rewrite !bool_decide_eq_false_2 by by vm_compute.
  cbn [iter_children app].
  destruct (tag_selected _ _); cbn [app];
    repeat first [rewrite filter_cons_True by by vm_compute
                 |rewrite filter_cons_False by by vm_compute
                 |rewrite filter_cons_False by (intros H; by apply H)];
    by rewrite !filter_nil.
Qed.

Lemma select_child_singleton tg n :
  select (Child tg) [n] = filter (λ e : node, tag e.2 = tg) (kids n).
Proof. unfold select. apply app_nil_r. Qed.

(** The strict tier of a document that holds just the fragment: the [img]
    elements made from the URIs, in order. *)
Lemma strict_of_fragment tg a tx tl (uris : list str) width height :
  findall strict_path
    ([], mkElement tg a tx tl (build_anilist_section uris width height))
  = imap (λ i uri, ([0; 0; 0; 0; 0; 0]%nat ++ [i], img uri width height)) uris.
Proof.
  rewrite findall_strict, anilist_of_fragment, select_child_singleton.
  unfold kids at 1. cbn [fst snd children element imap app].
  rewrite filter_cons_True by done. rewrite filter_nil.
  unfold class_is, select at 2.
  rewrite filter_cons_True by by vm_compute. rewrite filter_nil.
  rewrite select_child_singleton. apply kids_imgs.
Qed.

Lemma accepted_imgs (f : nat → list nat) (uris : list str) width height :
  Forall (λ u, is_data_uri (Some u) = true ∧ strip u = u) uris →
  accepted src_of (imap (λ i uri, (f i, img uri width height)) uris) = uris
  ∧ warnings img_warning src_of
      (imap (λ i uri, (f i, img uri width height)) uris) = [].
Proof.
  intros Hall. revert f.
  induction Hall as [|u uris [Hu Hs] _ IH]; intros f; [done|].
  destruct (IH (f ∘ S)) as [IHa IHw].
  unfold accepted, warnings in *. cbn [imap]. rewrite !bind_cons.
  change (imap ((λ i uri, (f i, img uri width height)) ∘ S) uris)
    with (imap (λ i uri, ((f ∘ S) i, img uri width height)) uris).
  cbn [snd]. rewrite src_of_img, IHa, IHw.
  unfold accepted_of, warning_of. rewrite Hu, Hs. done.
Qed.

(** X19. What a run extracted, built into a fragment and put into a
    document, is what an uncapped extraction from that document returns:
    the same URIs in the same order, after the one query of the strict
    path and with no warning. *)
Theorem fragment_round_trip source max uris tg a tx tl width height :
  result (extract_uris_data source max) = Ret uris → uris ≠ [] →
  extract_uris_data
    (mkElement tg a tx tl (build_anilist_section uris width height)) None
  = ([Query strict_path], Ret uris).
Proof.
  intros Hres Hne.
  assert (Forall (λ u, is_data_uri (Some u) = true ∧ strip u = u) uris) as Hall.
  { apply Forall_forall. intros u Hu.
    by destruct (returned_uri_valid _ _ _ _ Hres Hu) as (_ & ? & ?). }
  destruct (accepted_imgs (λ i, [0; 0; 0; 0; 0; 0]%nat ++ [i]) uris
              width height Hall) as [Ha Hw].
  rewrite extract_uris_data_eq. cbv zeta.
  rewrite scan_through by done.
  unfold tier12, queries12. rewrite strict_of_fragment.
  destruct uris as [|u uris]; [done|]. cbn [imap].
  cbn [imap] in Ha, Hw. rewrite Ha, Hw. done.
Qed.

Lemma fragment_round_trip_witness :
  extract_uris_data
    (mkElement FOREIGN_OBJECT ∅ None None
       (build_anilist_section [py Sample.uri_a] 36 54)) None
  = ([Query strict_path], Ret [py Sample.uri_a]).
Proof.
  apply (fragment_round_trip Sample.good_then_link None); [|done].
  by vm_compute.
Defined.

End round_trip.

Section reporting.

Lemma trace_bind {A B} (m : M A) (k : A → M B) :
  trace (m ≫= k) =
    trace m ++ match result m with
               | Ret a => trace (k a)
               | _ => []
               end.
Proof. destruct m as [tr [a| |]]; unfold trace; simpl; by rewrite ?app_nil_r. Qed.

Lemma find_object_trace root merge :
  trace (find_object root merge) = [Query foreign_object_path].
Proof.
  rewrite find_object_eq.
  by destruct (findall foreign_object_path ([], root)), merge.
Qed.

(** What [inject] prints and queries up to the write. *)
Lemma inject_trace_to_write fs target_svg source_svg max width height merge :
  trace (inject fs target_svg source_svg max width height merge) =
    match fs source_svg with
    | Some (Document source) =>
        trace (extract_uris_data source max)
        ++ match result (extract_uris_data source max) with
           | Ret uris =>
               Info (py "Pulled " ++ str_of_int (Z.of_nat (length uris))
                     ++ py " image(s) from source")
               :: match fs target_svg with
                  | Some (Document _) => [Query foreign_object_path]
                  | _ => []
                  end
           | _ => []
           end
    | _ => []
    end.
Proof.
  unfold inject, parse_svg. rewrite trace_bind.
  destruct (fs source_svg) as [[e|exc|source]|]; [reflexivity..| |reflexivity].
  change (result (mret source)) with (Ret (A := Element) source).
  change (trace (mret source)) with (@nil event). cbn [app].
  rewrite trace_bind. f_equal.
  destruct (result (extract_uris_data source max)) as [uris| |];
    [|reflexivity..].
  unfold info. rewrite bind_ret. unfold trace at 1. cbn [fst app]. f_equal.
  rewrite trace_bind.
  destruct (fs target_svg) as [[e|exc|target]|]; [reflexivity..| |reflexivity].
  change (result (mret target)) with (Ret (A := Element) target).
  change (trace (mret target)) with (@nil event). cbn [app].
  rewrite trace_bind, find_object_trace.
  by destruct (result (find_object target merge)) as [[r root']| |].
Qed.

End reporting.
